(** * remix-response: response helpers over a mapping of pending values

    A shallow embedding of [src/index.ts].  The module builds HTTP
    responses whose JSON body is a mapping of field names to values, some
    of which are promises.  The embedding follows the source function by
    function:

    - JavaScript values that reach [JSON.stringify] are the inductive
      [Value]; objects are property lists in enumeration order;
    - a promise is described by the tick at which it settles and by its
      outcome, or by [Never] when it stays pending for ever;
    - [Response] objects live in a heap, so that object identity and
      mutation can be talked about;
    - [JSON.stringify], [Headers] and [Response] belong to the host; they
      are modelled after ECMA-262 and the Fetch standard as far as the
      module uses them. *)

From Stdlib Require Import ZArith List String Ascii Bool Lia Arith
  DecimalString Permutation.
Import ListNotations.
Local Open Scope string_scope.
Set Warnings "-register-all".

(** ** JavaScript values *)

(** The values the module hands to [JSON.stringify]: primitives, arrays,
    plain objects (own enumerable properties in enumeration order) and
    [Error] instances.  An [Error] carries [name] and [message]; neither is
    an own enumerable property.  Numbers are integers; functions, symbols,
    dates and cyclic structures are outside the model. *)
Inductive Value : Type :=
| VUndefined
| VNull
| VBool (b : bool)
| VNum (n : Z)
| VStr (s : string)
| VArr (items : list Value)
| VObj (props : list (string * Value))
| VError (name message : string).

(** A JavaScript object with values of type [A]: its own enumerable string
    keys, in enumeration order. *)
Definition Obj (A : Type) : Type := list (string * A).


(** [o[k] = v]: an existing key keeps its place, a new key goes last. *)
Fixpoint obj_set {A} (k : string) (v : A) (o : Obj A) : Obj A :=
  match o with
  | [] => [(k, v)]
  | (k', v') :: rest =>
      if String.eqb k k' then (k', v) :: rest
      else (k', v') :: obj_set k v rest
  end.

Fixpoint obj_get {A} (k : string) (o : Obj A) : option A :=
  match o with
  | [] => None
  | (k', v) :: rest => if String.eqb k k' then Some v else obj_get k rest
  end.

(** The functions of the global [Object] the module calls. *)
Module Object.

Definition keys {A} (o : Obj A) : list string := map fst o.

Definition values {A} (o : Obj A) : list A := map snd o.

(** [Object.fromEntries(entries)]: the entries are defined one after the
    other on a fresh object. *)
Definition fromEntries {A} (entries : list (string * A)) : Obj A :=
  fold_left (fun acc e => obj_set (fst e) (snd e) acc) entries [].

End Object.

(** An object has each key once. *)
Definition wf_obj {A} (o : Obj A) : Prop := NoDup (Object.keys o).

(** Object spread [{...o}] copies the own enumerable properties in order. *)
Definition spread {A} (o : Obj A) : Obj A := Object.fromEntries o.

(** [xs.map((x, i) => f(x, i))], counting from [i]. *)
Fixpoint mapi_from {A B} (i : nat) (f : A -> nat -> B) (xs : list A) : list B :=
  match xs with
  | [] => []
  | x :: rest => f x i :: mapi_from (S i) f rest
  end.

Definition Array_map {A B} (f : A -> nat -> B) (xs : list A) : list B :=
  mapi_from 0 f xs.

(** ** JSON.stringify *)

(** The double quote character. *)
Definition dq : ascii := ascii_of_nat 34.

(** Reads a JSON text written with single quotes in place of double ones. *)
Fixpoint js (s : string) : string :=
  match s with
  | EmptyString => EmptyString
  | String c rest =>
      String (if Ascii.eqb c (ascii_of_nat 39) then dq else c) (js rest)
  end.

Fixpoint join (sep : string) (parts : list string) : string :=
  match parts with
  | [] => EmptyString
  | [p] => p
  | p :: rest => p ++ sep ++ join sep rest
  end.

(** The part of the global [JSON] the module calls. *)
Module JSON.

Definition hex_digit (n : nat) : ascii :=
  ascii_of_nat (if n <? 10 then 48 + n else 87 + n)%nat.

(** One code unit of [QuoteJSONString]. *)
Definition quote_char (c : ascii) : string :=
  let n := nat_of_ascii c in
  if (n =? 34)%nat then js "\'"
  else if (n =? 92)%nat then "\\"
  else if (n =? 8)%nat then "\b"
  else if (n =? 9)%nat then "\t"
  else if (n =? 10)%nat then "\n"
  else if (n =? 12)%nat then "\f"
  else if (n =? 13)%nat then "\r"
  else if (n <? 32)%nat then
    "\u00" ++ String (hex_digit (n / 16)) (String (hex_digit (n mod 16)) EmptyString)
  else String c EmptyString.

Fixpoint quote_chars (s : string) : string :=
  match s with
  | EmptyString => EmptyString
  | String c rest => quote_char c ++ quote_chars rest
  end.

Definition QuoteJSONString (s : string) : string :=
  String dq (quote_chars s ++ String dq EmptyString).

Definition Number_toString (n : Z) : string :=
  NilZero.string_of_int (Z.to_int n).

Definition nat_toString (n : nat) : string :=
  NilZero.string_of_uint (Nat.to_uint n).

(** What serializing one property gives: a text, [undefined] (the property
    is left out), or no answer because the recursion budget ran out. *)
Inductive Ser : Type :=
| Str (text : string)
| Undef
| OutOfFuel.

Definition Replacer : Type := string -> Value -> Value.

(** Elements of an array: [undefined] is written [null]. *)
Fixpoint array_parts (items : list Ser) : option (list string) :=
  match items with
  | [] => Some []
  | OutOfFuel :: _ => None
  | Undef :: rest => option_map (cons "null") (array_parts rest)
  | Str s :: rest => option_map (cons s) (array_parts rest)
  end.

(** Members of an object: a property whose value is [undefined] is skipped. *)
Fixpoint object_parts (members : list (string * Ser)) : option (list string) :=
  match members with
  | [] => Some []
  | (_, OutOfFuel) :: _ => None
  | (_, Undef) :: rest => object_parts rest
  | (k, Str s) :: rest =>
      option_map (cons (QuoteJSONString k ++ ":" ++ s)) (object_parts rest)
  end.

Definition wrap (l r : string) (parts : option (list string)) : Ser :=
  match parts with
  | Some ps => Str (l ++ join "," ps ++ r)
  | None => OutOfFuel
  end.

(** [SerializeJSONProperty] of ECMA-262: the replacer, when there is one,
    is applied to the property's value first, and the result is serialized
    by type.  A replacer may return ever larger values, so the recursion is
    bounded by [fuel]. *)
Fixpoint SerializeJSONProperty (fuel : nat) (replacer : option Replacer)
    (key : string) (value : Value) : Ser :=
  match fuel with
  | O => OutOfFuel
  | S fuel' =>
      let value :=
        match replacer with
        | Some f => f key value
        | None => value
        end in
      match value with
      | VUndefined => Undef
      | VNull => Str "null"
      | VBool true => Str "true"
      | VBool false => Str "false"
      | VNum n => Str (Number_toString n)
      | VStr s => Str (QuoteJSONString s)
      | VArr items =>
          wrap "[" "]"
            (array_parts
               (Array_map
                  (fun x i => SerializeJSONProperty fuel' replacer (nat_toString i) x)
                  items))
      | VObj props =>
          wrap "{" "}"
            (object_parts
               (map (fun p => (fst p, SerializeJSONProperty fuel' replacer (fst p) (snd p)))
                  props))
      | VError _ _ => Str "{}"
      end
  end.

(** Nesting depth of a value. *)
Fixpoint depth (v : Value) : nat :=
  match v with
  | VArr items => S (fold_right (fun x d => Nat.max (depth x) d) 0%nat items)
  | VObj props => S (fold_right (fun p d => Nat.max (depth (snd p)) d) 0%nat props)
  | _ => 0%nat
  end.

(** Serializing [value] as the property [key]; the budget is enough for the
    value itself and for one more level a replacer may add. *)
Definition property (replacer : option Replacer) (key : string)
    (value : Value) : Ser :=
  SerializeJSONProperty (S (S (depth value))) replacer key value.

(** [JSON.stringify(value, replacer)]: the value is serialized as the
    property with the empty key of a wrapper object; the answer is a string
    or [undefined]. *)
Definition stringify (replacer : option Replacer) (value : Value)
    : option string :=
  match property replacer EmptyString value with
  | Str s => Some s
  | _ => None
  end.

End JSON.
Import JSON.

(** [errorReplacer] of the source. *)
Definition errorReplacer (_key : string) (value : Value) : Value :=
  match value with
  | VError name message =>
      VObj [("message", VStr message); ("name", VStr name); ("isError", VBool true)]
  | _ => value
  end.

(** ** Promises *)

Inductive Outcome (A E : Type) : Type :=
| Fulfilled (value : A)
| Rejected (reason : E).
Arguments Fulfilled {A E} value.
Arguments Rejected {A E} reason.

(** A promise, seen from the event loop: it settles at some tick with an
    outcome that no longer changes, or it stays pending for ever. *)
Inductive Promise (A E : Type) : Type :=
| Settles (tick : nat) (outcome : Outcome A E)
| Never.
Arguments Settles {A E} tick outcome.
Arguments Never {A E}.

(** A continuation cannot run before the tick [t] at which it was scheduled. *)
Definition delay {A E} (t : nat) (p : Promise A E) : Promise A E :=
  match p with
  | Settles t' o => Settles (Nat.max t t') o
  | Never => Never
  end.

(** A value of a Field Mapping: a plain value or a pending computation. *)
Inductive Field : Type :=
| Plain (v : Value)
| Pending (p : Promise Value Value).

Definition Data : Type := Obj Field.

(** [Promise.resolve(x)]: a promise is taken as it is, any other value is
    already fulfilled. *)
Definition Promise_resolve (x : Field) : Promise Value Value :=
  match x with
  | Plain v => Settles 0 (Fulfilled v)
  | Pending p => p
  end.

(** The rejection [Promise.all] reports: the earliest one, and among
    rejections of one tick the first in the array. *)
Fixpoint first_rejection {A E} (ps : list (Promise A E)) : option (nat * E) :=
  match ps with
  | [] => None
  | Settles t (Rejected e) :: rest =>
      match first_rejection rest with
      | Some (t', e') => if Nat.leb t t' then Some (t, e) else Some (t', e')
      | None => Some (t, e)
      end
  | _ :: rest => first_rejection rest
  end.

(** All values, once the last promise has fulfilled. *)
Fixpoint gather {A E} (ps : list (Promise A E)) : Promise (list A) E :=
  match ps with
  | [] => Settles 0 (Fulfilled [])
  | Settles t (Fulfilled a) :: rest =>
      match gather rest with
      | Settles t' (Fulfilled l) => Settles (Nat.max t t') (Fulfilled (a :: l))
      | other => other
      end
  | Settles t (Rejected e) :: _ => Settles t (Rejected e)
  | Never :: _ => Never
  end.

Definition Promise_all {A E} (ps : list (Promise A E)) : Promise (list A) E :=
  match first_rejection ps with
  | Some (t, e) => Settles t (Rejected e)
  | None => gather ps
  end.

(** The object [Promise.allSettled] makes for one settled promise. *)
Definition settlement_record (o : Outcome Value Value) : Value :=
  match o with
  | Fulfilled v => VObj [("status", VStr "fulfilled"); ("value", v)]
  | Rejected r => VObj [("status", VStr "rejected"); ("reason", r)]
  end.

(** [Promise.allSettled] never rejects, whatever type of reason is asked. *)
Fixpoint Promise_allSettled {E} (ps : list (Promise Value Value))
    : Promise (list Value) E :=
  match ps with
  | [] => Settles 0 (Fulfilled [])
  | Settles t o :: rest =>
      match Promise_allSettled rest with
      | Settles t' (Fulfilled l) =>
          Settles (Nat.max t t') (Fulfilled (settlement_record o :: l))
      | other => other
      end
  | Never :: _ => Never
  end.

(** [await p] followed by the rest of an async function. *)
Definition await {A B E} (p : Promise A E) (k : A -> Promise B E) : Promise B E :=
  match p with
  | Settles t (Fulfilled a) => delay t (k a)
  | Settles t (Rejected e) => Settles t (Rejected e)
  | Never => Never
  end.

Definition resolved {A E} (a : A) : Promise A E := Settles 0 (Fulfilled a).

Notation "x <- 'await!' p ;; k" := (await p (fun x => k))
  (at level 61, p at next level, right associativity).

(** [hash] of the source. *)
Definition hash (data : Data) : Promise (Obj Value) Value :=
  values <- await! Promise_all (map Promise_resolve (Object.values data)) ;;
  resolved
    (Object.fromEntries
       (Array_map (fun prop i => (prop, nth i values VUndefined)) (Object.keys data))).

(** [hashSettled] of the source. *)
Definition hashSettled {E} (data : Data) : Promise (Obj Value) E :=
  values <- await! Promise_allSettled (map Promise_resolve (Object.values data)) ;;
  resolved
    (Object.fromEntries
       (Array_map (fun prop i => (prop, nth i values VUndefined)) (Object.keys data))).

(** ** Headers and responses of the host *)

Definition lower_char (c : ascii) : ascii :=
  let n := nat_of_ascii c in
  if ((65 <=? n) && (n <=? 90))%nat then ascii_of_nat (n + 32) else c.

Fixpoint lowercase (s : string) : string :=
  match s with
  | EmptyString => EmptyString
  | String c rest => String (lower_char c) (lowercase rest)
  end.

(** A header list of the Fetch standard: names are case-insensitive and kept
    in lower case, and a name may occur more than once. *)
Definition Headers : Type := list (string * string).

(** Appending an entry the host has accepted; [Checked.checked_entries]
    is the check. *)
Definition Headers_append (name value : string) (hs : Headers) : Headers :=
  (hs ++ [(lowercase name, value)])%list.

(** Filling a header list from a record appends one entry per property. *)
Definition Headers_fill (o : Obj string) : Headers :=
  fold_left (fun hs e => Headers_append (fst e) (snd e) hs) o [].

(** [headers.get(name)]: the values of all entries of that name, joined
    with a comma and a space; [null] when there is none. *)
Definition Headers_get (name : string) (hs : Headers) : option string :=
  match map snd (filter (fun e => String.eqb (fst e) (lowercase name)) hs) with
  | [] => None
  | vs => Some (join ", " vs)
  end.

(** The stream the module makes for the provisional body: at [tick] the
    chunks are pushed, followed by the end of the stream; a [Silent] stream
    is never pushed to. *)
Inductive Readable : Type :=
| Pushed (tick : nat) (chunks : list string)
| Silent.

Inductive Body : Type :=
| BNull
| BText (text : string)
| BStream (stream : Readable).

(** The options object given to [new Response]; headers are a record.  The
    type [Init] of the source leaves [status] out, but an object passed at
    run time may carry one. *)
Record ResponseInit : Type := {
  init_status : option Z;
  init_statusText : option string;
  init_headers : option (Obj string)
}.

Definition Init : Type := ResponseInit.

Definition Ref : Type := nat.

(** What the [then] closure of a response captured. *)
Record ThenEnv : Type := {
  env_status : Z;
  env_data : Data;
  env_init : option Init
}.

Record Response : Type := {
  status : Z;
  statusText : string;
  headers : Headers;
  body : Body;
  own_then : option ThenEnv
}.

Definition Heap : Type := list Response.

(** Code that allocates or updates objects. *)
Definition M (A : Type) : Type := Heap -> A * Heap.

Definition ret {A} (a : A) : M A := fun h => (a, h).
Definition bind {A B} (m : M A) (k : A -> M B) : M B :=
  fun h => let (a, h') := m h in k a h'.

Notation "x <- m ;; k" := (bind m (fun x => k))
  (at level 61, m at next level, right associativity).

Definition alloc (r : Response) : M Ref := fun h => (List.length h, (h ++ [r])%list).

Definition deref (r : Ref) (h : Heap) : option Response := nth_error h r.

Fixpoint update (r : Ref) (f : Response -> Response) (h : Heap) : Heap :=
  match h, r with
  | [], _ => []
  | x :: rest, O => f x :: rest
  | x :: rest, S r' => x :: update r' f rest
  end.

Definition modify (r : Ref) (f : Response -> Response) : M unit :=
  fun h => (tt, update r f h).

Definition default {A} (d : A) (o : option A) : A :=
  match o with
  | Some a => a
  | None => d
  end.

(** The object [new Response(body, init)] constructs, once the host has
    accepted its arguments.  The check of header names and values that
    comes first is in the module [Checked] further down.  The host of the
    repository's tests builds a response of status 205 with a body, so no
    check of the body against the status is made. *)
Definition Response_of (b : Body) (init : ResponseInit) : Response :=
  {| status := default 200%Z (init_status init);
     statusText := default EmptyString (init_statusText init);
     headers := Headers_fill (default [] (init_headers init));
     body := b;
     own_then := None |}.

(** [new Response(body, init)]. *)
Definition new_Response (b : Body) (init : ResponseInit) : M Ref :=
  alloc (Response_of b init).

(** A body given as a string, or [undefined]. *)
Definition body_of (text : option string) : Body :=
  match text with
  | Some s => BText s
  | None => BNull
  end.

Definition empty_init : ResponseInit :=
  {| init_status := None; init_statusText := None; init_headers := None |}.

(** [init?.headers], spread into an object literal, for headers given as
    a record; [Checked.spread_HeadersInit] has the other shapes. *)
Definition spread_headers (init : option Init) : Obj string :=
  match init with
  | Some i => spread (default [] (init_headers i))
  | None => []
  end.

Definition json_content_type : string := "application/json; charset=utf-8".

(** The options [makeResponse] passes on: [init] spread first, then
    [status] and [headers]. *)
Definition makeResponse_options (st : Z) (init : option Init) : ResponseInit :=
  {| init_status := Some st;
     init_statusText := init_statusText (default empty_init init);
     init_headers :=
       Some (obj_set "Content-Type" json_content_type (spread_headers init)) |}.

(** [makeResponse] of the source. *)
Definition makeResponse (st : Z) (b : Body) (init : option Init) : M Ref :=
  new_Response b (makeResponse_options st init).

(** ** Asynchronous code that allocates *)

(** An asynchronous computation over the heap: the promise it stands for,
    and the heap once its continuations have run. *)
Definition Task (A E : Type) : Type := Heap -> Promise A E * Heap.

Definition task_resolve {A E} (a : A) : Task A E := fun h => (resolved a, h).

(** [Promise.reject(e)]. *)
Definition Promise_reject {A E} (e : E) : Task A E :=
  fun h => (Settles 0 (Rejected e), h).

Definition from_promise {A E} (p : Promise A E) : Task A E := fun h => (p, h).

(** A callback that first runs synchronous code, then goes on with [k]. *)
Definition after {A B E} (m : M A) (k : A -> Task B E) : Task B E :=
  fun h => let (a, h') := m h in k a h'.

(** A callback that returns a plain value. *)
Definition returning {A E} (m : M A) : Task A E := after m task_resolve.

(** [p.then(onFulfilled, onRejected)]. *)
Definition task_then2 {A E B E'} (m : Task A E)
    (onFulfilled : A -> Task B E') (onRejected : E -> Task B E') : Task B E' :=
  fun h =>
    match m h with
    | (Settles t (Fulfilled a), h1) =>
        let (q, h2) := onFulfilled a h1 in (delay t q, h2)
    | (Settles t (Rejected e), h1) =>
        let (q, h2) := onRejected e h1 in (delay t q, h2)
    | (Never, h1) => (Never, h1)
    end.

(** [p.then(onFulfilled)]. *)
Definition task_then {A E B} (m : Task A E) (onFulfilled : A -> Task B E)
    : Task B E :=
  task_then2 m onFulfilled Promise_reject.

(** [p.catch(onRejected)]. *)
Definition task_catch {A E E'} (m : Task A E) (onRejected : E -> Task A E')
    : Task A E' :=
  task_then2 m task_resolve onRejected.

(** ** The response builders *)

(** What the callback of [hashSettled(data).then(...)] pushes. *)
Definition pushed_chunks (json : option string) : list string :=
  match json with
  | Some s => [s]
  | None => []
  end.

(** The stream of the provisional body: filled when the settle-each run
    of [data] completes. *)
Definition provisional_stream (data : Data) : Readable :=
  match hashSettled (E := Value) data with
  | Settles t (Fulfilled result) =>
      Pushed t (pushed_chunks (JSON.stringify (Some errorReplacer) (VObj result)))
  | _ => Silent
  end.

Definition set_then (env : ThenEnv) (r : Response) : Response :=
  {| status := status r; statusText := statusText r; headers := headers r;
     body := body r; own_then := Some env |}.

(** [responseFunction] of the source, up to the [then] closure, which is
    [then_] below applied to the captured [status], [data] and [init]. *)
Definition responseFunction (st : Z) (data : Data) (init : option Init) : M Ref :=
  let stream := provisional_stream data in
  response <- makeResponse st (BStream stream) init ;;
  _ <- modify response
         (set_then {| env_status := st; env_data := data; env_init := init |}) ;;
  ret response.

(** The chain [hash(data).then(...).catch(...)] inside [then]. *)
Definition settled_response (st : Z) (data : Data) (init : option Init)
    : Task Ref Ref :=
  task_catch
    (task_then (from_promise (hash data))
       (fun data' =>
          returning (makeResponse st (body_of (JSON.stringify None (VObj data'))) init)))
    (fun _ =>
       task_then (from_promise (hashSettled data))
         (fun result =>
            after
              (makeResponse 500
                 (body_of (JSON.stringify (Some errorReplacer) (VObj result))) init)
              Promise_reject)).

(** The [then] method installed on the response. *)
Definition then_ {B E} (st : Z) (data : Data) (init : option Init)
    (cb eb : Ref -> Task B E) : Task B E :=
  task_then2 (settled_response st data init) cb eb.

(** [await response]: a response that has a [then] of its own is a
    thenable and is settled through it; any other response is the result. *)
Definition await_response (response : Ref) : Task Ref Ref :=
  fun h =>
    match deref response h with
    | Some r =>
        match own_then r with
        | Some env =>
            then_ (env_status env) (env_data env) (env_init env)
              task_resolve Promise_reject h
        | None => task_resolve response h
        end
    | None => task_resolve response h
    end.

(** [redirectFunction] of the source. *)
Definition redirectFunction (st : Z) (url : string) : M Ref :=
  new_Response BNull
    {| init_status := Some st;
       init_statusText := None;
       init_headers := Some [("Location", url)] |}.

(** A JavaScript call that passes one argument more than the function
    declares: the surplus argument is dropped. *)
Definition call_with_surplus {A B C} (f : A -> B) (a : A) (_surplus : C) : B :=
  f a.

(** 2XX *)
Definition ok := responseFunction 200.
Definition created := responseFunction 201.
Definition noContent (init : option Init) : M Ref :=
  new_Response BNull
    {| init_status := Some 204%Z;
       init_statusText := init_statusText (default empty_init init);
       init_headers := init_headers (default empty_init init) |}.
Definition resetContent := responseFunction 205.
Definition partialContent := responseFunction 206.

(** 3XX *)
Definition movedPermanently := redirectFunction 301.
Definition found := redirectFunction 302.
Definition seeOther := redirectFunction 303.
Definition notModified := redirectFunction 304.
Definition temporaryRedirect := redirectFunction 307.
Definition permanentRedirect := redirectFunction 308.

(** 4XX *)
Definition badRequest := responseFunction 400.
Definition unauthorized := responseFunction 401.
Definition forbidden := responseFunction 403.
Definition notFound := responseFunction 404.
Definition methodNotAllowed := responseFunction 405.
Definition notAcceptable := responseFunction 406.
Definition conflict := responseFunction 409.
Definition gone := responseFunction 410.
Definition preconditionFailed := responseFunction 412.
Definition expectationFailed := responseFunction 417.
Definition teapot := responseFunction 418.
Definition preconditionRequired := responseFunction 428.
Definition tooManyRequests := responseFunction 429.

(** 5XX *)
Definition serverError := responseFunction 500.
Definition notImplemented := responseFunction 501.
Definition serviceUnavailable := responseFunction 503.

(** The mapping-based operations with the status the interface table gives
    to each. *)
Definition mapping_operations : list (Z * (Data -> option Init -> M Ref)) :=
  [ (200, ok); (201, created); (205, resetContent); (206, partialContent);
    (400, badRequest); (401, unauthorized); (403, forbidden); (404, notFound);
    (405, methodNotAllowed); (406, notAcceptable); (409, conflict); (410, gone);
    (412, preconditionFailed); (417, expectationFailed); (418, teapot);
    (428, preconditionRequired); (429, tooManyRequests);
    (500, serverError); (501, notImplemented); (503, serviceUnavailable) ]%Z.

(** The redirect operations with their status. *)
Definition redirect_operations : list (Z * (string -> M Ref)) :=
  [ (301, movedPermanently); (302, found); (303, seeOther); (304, notModified);
    (307, temporaryRedirect); (308, permanentRedirect) ]%Z.

(** ** The scenarios of the test suite *)

Definition fulfilled_with (s : string) : Field := Pending (Settles 1 (Fulfilled (VStr s))).
Definition rejected_with (v : Value) : Field := Pending (Settles 1 (Rejected v)).

(** What an awaited response looks like: outcome, status and body. *)
Definition observe (t : Task Ref Ref) (h : Heap)
    : option (Outcome (Z * Body) (Z * Body)) :=
  match t h with
  | (Settles _ (Fulfilled r), h') =>
      option_map (fun x => Fulfilled (status x, body x)) (deref r h')
  | (Settles _ (Rejected r), h') =>
      option_map (fun x => Rejected (status x, body x)) (deref r h')
  | (Never, _) => None
  end.

Definition awaited (op : M Ref) : option (Outcome (Z * Body) (Z * Body)) :=
  let (r, h) := op [] in observe (await_response r) h.

(** ** The vocabulary of the specification *)

(** How a value of a Field Mapping settles: a plain value counts as
    fulfilled; [None] when the computation stays pending. *)
Definition outcome_of (f : Field) : option (Outcome Value Value) :=
  match Promise_resolve f with
  | Settles _ o => Some o
  | Never => None
  end.

(** The mapping with each pending computation replaced by its fulfilled
    value, defined when every pending computation fulfills. *)
Fixpoint replace_pending (data : Data) : option (Obj Value) :=
  match data with
  | [] => Some []
  | (k, f) :: rest =>
      match outcome_of f, replace_pending rest with
      | Some (Fulfilled v), Some o => Some ((k, v) :: o)
      | _, _ => None
      end
  end.

(** One settlement record per key, defined when every pending computation
    settles. *)
Fixpoint settle_each (data : Data) : option (Obj Value) :=
  match data with
  | [] => Some []
  | (k, f) :: rest =>
      match outcome_of f, settle_each rest with
      | Some o, Some records => Some ((k, settlement_record o) :: records)
      | _, _ => None
      end
  end.

(** At least one pending computation fails. *)
Definition some_fails (data : Data) : bool :=
  existsb (fun e => match outcome_of (snd e) with
                    | Some (Rejected _) => true
                    | _ => false
                    end) data.

(** Every pending computation settles. *)
Definition all_settle (data : Data) : bool :=
  forallb (fun e => match outcome_of (snd e) with
                    | Some _ => true
                    | None => false
                    end) data.

(** A mapping of plain values, as a Field Mapping without pending
    computations. *)
Definition plain_data (o : Obj Value) : Data :=
  map (fun e => (fst e, Plain (snd e))) o.

(** The mapping with every value wrapped as a fulfilled settlement. *)
Definition fulfilled_records (o : Obj Value) : Obj Value :=
  map (fun e => (fst e, settlement_record (Fulfilled (snd e)))) o.

(** No [Error] instance occurs in the value. *)
Fixpoint error_free (v : Value) : bool :=
  match v with
  | VError _ _ => false
  | VArr items => forallb error_free items
  | VObj props => forallb (fun p => error_free (snd p)) props
  | _ => true
  end.


(** The two ways the module calls [JSON.stringify]. *)
Definition module_replacer (rep : option Replacer) : Prop :=
  rep = None \/ rep = Some errorReplacer.

(** The response a builder has just made. *)
Definition built (op : M Ref) (h : Heap) : option Response :=
  let (r, h') := op h in deref r h'.

(** The text a body delivers, when it delivers one. *)
Definition body_text (b : Body) : option string :=
  match b with
  | BNull => None
  | BText s => Some s
  | BStream (Pushed _ chunks) => Some (String.concat EmptyString chunks)
  | BStream Silent => None
  end.

(** The result of awaiting the response an operation has built. *)
Definition await_built (op : M Ref) (h : Heap) : Promise Ref Ref * Heap :=
  let (r, h1) := op h in await_response r h1.

(** The tick at which the last computation of the mapping settles. *)
Definition last_tick (data : Data) : nat :=
  fold_right (fun e m => match Promise_resolve (snd e) with
                         | Settles t _ => Nat.max t m
                         | Never => m
                         end) 0%nat data.


(** The reference a settled promise carries. *)
Definition settled_ref (p : Promise Ref Ref) : option Ref :=
  match p with
  | Settles _ (Fulfilled r) => Some r
  | Settles _ (Rejected r) => Some r
  | Never => None
  end.

(** ** The builders with the checks of the host *)

(** [new Response] validates what it is given before it constructs
    anything.  The definitions so far describe a builder once the host has
    accepted its arguments, with the caller's headers given as a record.
    The module [Checked] below puts the check in front, and the other two
    shapes the type [HeadersInit] admits beside the record. *)

Fixpoint forall_chars (p : ascii -> bool) (s : string) : bool :=
  match s with
  | EmptyString => true
  | String c rest => p c && forall_chars p rest
  end.

(** HTTP white space: tab, line feed, carriage return, space. *)
Definition is_http_whitespace (c : ascii) : bool :=
  let n := nat_of_ascii c in
  ((n =? 9) || (n =? 10) || (n =? 13) || (n =? 32))%nat.

Fixpoint trim_left (s : string) : string :=
  match s with
  | EmptyString => EmptyString
  | String c rest => if is_http_whitespace c then trim_left rest else s
  end.

Fixpoint trim_right (s : string) : string :=
  match s with
  | EmptyString => EmptyString
  | String c rest =>
      match trim_right rest with
      | EmptyString => if is_http_whitespace c then EmptyString else String c EmptyString
      | kept => String c kept
      end
  end.

(** Normalizing a header value strips the white space around it. *)
Definition trim (s : string) : string := trim_right (trim_left s).

(** The characters of a token: letters, digits and a few marks. *)
Definition is_token_char (c : ascii) : bool :=
  let n := nat_of_ascii c in
  (((48 <=? n) && (n <=? 57)) || ((65 <=? n) && (n <=? 90))
   || ((97 <=? n) && (n <=? 122))
   || existsb (Nat.eqb n) [33; 35; 36; 37; 38; 39; 42; 43; 45; 46; 94; 95; 96; 124; 126])%nat.

Definition is_token (s : string) : bool :=
  negb (String.eqb s EmptyString) && forall_chars is_token_char s.

(** NUL, line feed and carriage return cannot occur in a header value. *)
Definition allowed_in_value (c : ascii) : bool :=
  let n := nat_of_ascii c in
  negb ((n =? 0) || (n =? 10) || (n =? 13))%nat.

(** Tab, space, the visible characters and the code units from 128 to 255. *)
Definition is_text_char (c : ascii) : bool :=
  let n := nat_of_ascii c in
  ((n =? 9) || ((32 <=? n) && negb (n =? 127)))%nat.

(** A header value every host takes as it is: text characters only, no
    white space around it.  A string stands for code units below 256; a
    JavaScript string with a code unit above 255 is refused by the hosts
    and has no counterpart here. *)
Definition plain_value (v : string) : bool :=
  forall_chars is_text_char v && String.eqb (trim v) v.

(** What a host does with the names and values it is given. *)
Record Host : Type := {
  normalize_value : string -> string;
  value_ok : string -> bool;
  name_ok : string -> bool;
  statusText_ok : string -> bool
}.

(** The host of the Fetch standard: a value is stripped of the white space
    around it and must then be free of NUL, line feed and carriage return;
    a name is a token; a status text is made of text characters. *)
Definition fetch_standard : Host :=
  {| normalize_value := trim;
     value_ok := forall_chars allowed_in_value;
     name_ok := is_token;
     statusText_ok := forall_chars is_text_char |}.

(** What the theorems ask of a host: it takes tokens as names, and plain
    values as they are.  The host of the repository's tests is one: it
    keeps the values it accepts unchanged and refuses the characters
    outside tab, space, the visible ones and 128 to 255. *)
Definition conforming (host : Host) : Prop :=
  (forall n, is_token n = true -> name_ok host n = true)
  /\ (forall v, plain_value v = true ->
        normalize_value host v = v /\ value_ok host v = true).

(** How a call ends: with a value, or with the [TypeError] of a refused
    argument. *)
Inductive Completion (A : Type) : Type :=
| Returned (a : A)
| ThrownTypeError.
Arguments Returned {A} a.
Arguments ThrownTypeError {A}.

Module Checked.

(** [HeadersInit]: a record, a [Headers] object with its entries, or an
    array of pairs. *)
Inductive HeadersInit : Type :=
| HRecord (o : Obj string)
| HInstance (entries : Headers)
| HPairs (pairs : list (string * string)).

(** The configuration object as the caller passes it. *)
Record Init : Type := {
  caller_status : option Z;
  caller_statusText : option string;
  caller_headers : option HeadersInit
}.

(** [{...headers}]: a record gives its properties; a [Headers] object has
    no own enumerable property; an array gives its indices as keys, each
    pair being written as a string, name and value joined by a comma, when
    it is used as a header value. *)
Definition spread_HeadersInit (headers : option HeadersInit) : Obj string :=
  match headers with
  | None => []
  | Some (HRecord o) => spread o
  | Some (HInstance _) => []
  | Some (HPairs pairs) =>
      Array_map (fun p i => (nat_toString i, fst p ++ "," ++ snd p)) pairs
  end.

(** The entries with which the constructor fills the header list. *)
Definition entries_of (headers : option HeadersInit) : list (string * string) :=
  match headers with
  | None => []
  | Some (HRecord o) => o
  | Some (HInstance entries) => entries
  | Some (HPairs pairs) => pairs
  end.

(** Appending to a header list: the value is normalized, then name and
    value are checked; [None] stands for the [TypeError]. *)
Fixpoint checked_entries (host : Host) (entries : list (string * string))
    : option (Obj string) :=
  match entries with
  | [] => Some []
  | (name, value) :: rest =>
      let value := normalize_value host value in
      if name_ok host name && value_ok host value then
        option_map (cons (name, value)) (checked_entries host rest)
      else None
  end.

Definition checked_statusText (host : Host) (text : option string) : bool :=
  match text with
  | Some s => statusText_ok host s
  | None => true
  end.

(** [new Response(body, init)]: the arguments are checked, then the
    response is constructed from what the host made of them.  The builders
    pass one of their fixed status codes, all of them in the range every
    host accepts, so the check of the range is left out. *)
Definition new_Response (host : Host) (b : Body) (init : Init)
    : Heap -> Completion Ref * Heap :=
  fun h =>
    match checked_entries host (entries_of (caller_headers init)) with
    | Some accepted =>
        if checked_statusText host (caller_statusText init) then
          let (r, h') :=
            alloc (Response_of b
                     {| init_status := caller_status init;
                        init_statusText := caller_statusText init;
                        init_headers := Some accepted |}) h in
          (Returned r, h')
        else (ThrownTypeError, h)
    | None => (ThrownTypeError, h)
    end.

(** [makeResponse] of the source. *)
Definition makeResponse (host : Host) (st : Z) (b : Body) (init : option Init)
    : Heap -> Completion Ref * Heap :=
  new_Response host b
    {| caller_status := Some st;
       caller_statusText := match init with
                          | Some i => caller_statusText i
                          | None => None
                          end;
       caller_headers :=
         Some (HRecord
                 (obj_set "Content-Type" json_content_type
                    (spread_HeadersInit
                       match init with
                       | Some i => caller_headers i
                       | None => None
                       end))) |}.

(** The configuration the [then] closure goes on with, in the form the
    await path works on: the caller's headers as the host takes them. *)
Definition captured (host : Host) (init : option Init) : option ResponseInit :=
  match init with
  | None => None
  | Some i =>
      Some {| init_status := caller_status i;
              init_statusText := caller_statusText i;
              init_headers :=
                Some (map (fun e => (fst e, normalize_value host (snd e)))
                        (spread_HeadersInit (caller_headers i))) |}
  end.

(** [responseFunction] of the source: when [makeResponse] throws, so does
    the builder. *)
Definition responseFunction (host : Host) (st : Z) (data : Data)
    (init : option Init) : Heap -> Completion Ref * Heap :=
  fun h =>
    let stream := provisional_stream data in
    match makeResponse host st (BStream stream) init h with
    | (Returned response, h1) =>
        (Returned response,
         update response
           (set_then {| env_status := st; env_data := data;
                        env_init := captured host init |}) h1)
    | (ThrownTypeError, h1) => (ThrownTypeError, h1)
    end.

(** [redirectFunction] of the source. *)
Definition redirectFunction (host : Host) (st : Z) (url : string)
    : Heap -> Completion Ref * Heap :=
  new_Response host BNull
    {| caller_status := Some st;
       caller_statusText := None;
       caller_headers := Some (HRecord [("Location", url)]) |}.

(** 2XX *)
Definition ok host := responseFunction host 200.
Definition created host := responseFunction host 201.
Definition noContent (host : Host) (init : option Init)
    : Heap -> Completion Ref * Heap :=
  new_Response host BNull
    {| caller_status := Some 204%Z;
       caller_statusText := match init with
                          | Some i => caller_statusText i
                          | None => None
                          end;
       caller_headers := match init with
                       | Some i => caller_headers i
                       | None => None
                       end |}.
Definition resetContent host := responseFunction host 205.
Definition partialContent host := responseFunction host 206.

(** 3XX *)
Definition movedPermanently host := redirectFunction host 301.
Definition found host := redirectFunction host 302.
Definition seeOther host := redirectFunction host 303.
Definition notModified host := redirectFunction host 304.
Definition temporaryRedirect host := redirectFunction host 307.
Definition permanentRedirect host := redirectFunction host 308.

(** 4XX *)
Definition badRequest host := responseFunction host 400.
Definition unauthorized host := responseFunction host 401.
Definition forbidden host := responseFunction host 403.
Definition notFound host := responseFunction host 404.
Definition methodNotAllowed host := responseFunction host 405.
Definition notAcceptable host := responseFunction host 406.
Definition conflict host := responseFunction host 409.
Definition gone host := responseFunction host 410.
Definition preconditionFailed host := responseFunction host 412.
Definition expectationFailed host := responseFunction host 417.
Definition teapot host := responseFunction host 418.
Definition preconditionRequired host := responseFunction host 428.
Definition tooManyRequests host := responseFunction host 429.

(** 5XX *)
Definition serverError host := responseFunction host 500.
Definition notImplemented host := responseFunction host 501.
Definition serviceUnavailable host := responseFunction host 503.

Definition mapping_operations
    : list (Z * (Host -> Data -> option Init -> Heap -> Completion Ref * Heap)) :=
  [ (200, ok); (201, created); (205, resetContent); (206, partialContent);
    (400, badRequest); (401, unauthorized); (403, forbidden); (404, notFound);
    (405, methodNotAllowed); (406, notAcceptable); (409, conflict); (410, gone);
    (412, preconditionFailed); (417, expectationFailed); (418, teapot);
    (428, preconditionRequired); (429, tooManyRequests);
    (500, serverError); (501, notImplemented); (503, serviceUnavailable) ]%Z.

Definition redirect_operations
    : list (Z * (Host -> string -> Heap -> Completion Ref * Heap)) :=
  [ (301, movedPermanently); (302, found); (303, seeOther); (304, notModified);
    (307, temporaryRedirect); (308, permanentRedirect) ]%Z.

End Checked.

(** A record whose names are tokens and whose values are plain. *)
Definition plain_headers (o : Obj string) : Prop :=
  Forall (fun e => is_token (fst e) = true /\ plain_value (snd e) = true) o.

(** ** The scenarios, evaluated *)

Example waits_for_promises_to_resolve :
  awaited (ok [("a", fulfilled_with "a"); ("b", fulfilled_with "b");
               ("c", fulfilled_with "c")] None)
  = Some (Fulfilled (200%Z, BText (js "{'a':'a','b':'b','c':'c'}"))).
Proof. vm_compute. reflexivity. Qed.

Example rejects_with_a_settled_version :
  awaited (ok [("a", fulfilled_with "a"); ("b", rejected_with (VStr "b"));
               ("c", rejected_with (VStr "c"))] None)
  = Some (Rejected (500%Z, BText (js
      "{'a':{'status':'fulfilled','value':'a'},'b':{'status':'rejected','reason':'b'},'c':{'status':'rejected','reason':'c'}}"))).
Proof. vm_compute. reflexivity. Qed.

Example serializes_errors :
  awaited (ok [("a", rejected_with (VError "TypeError" "asdf"))] None)
  = Some (Rejected (500%Z, BText (js
      "{'a':{'status':'rejected','reason':{'message':'asdf','name':'TypeError','isError':true}}}"))).
Proof. vm_compute. reflexivity. Qed.

Example thrown_response_body :
  option_map body (let (r, h) := ok [("a", Plain (VNum 1))] None [] in deref r h)
  = Some (BStream (Pushed 0 [js "{'a':{'status':'fulfilled','value':1}}"])).
Proof. vm_compute. reflexivity. Qed.

Example redirect_scenario :
  option_map (fun r => (status r, Headers_get "location" (headers r), body r))
    (let (r, h) := movedPermanently "https://www.example.com" [] in deref r h)
  = Some (301%Z, Some "https://www.example.com", BNull).
Proof. vm_compute. reflexivity. Qed.

Example noContent_scenario :
  option_map (fun r => (status r, body r)) (let (r, h) := noContent None [] in deref r h)
  = Some (204%Z, BNull).
Proof. vm_compute. reflexivity. Qed.

Local Open Scope list_scope.

(** ** Objects *)

(** The keys of a literal object are distinct. *)
Ltac distinct_keys := repeat constructor; simpl; intuition discriminate.

Section Objects.
Context {A : Type}.
Implicit Types (o : Obj A) (k : string) (v : A).

Lemma obj_set_fresh o k v :
  ~ In k (Object.keys o) -> obj_set k v o = (o ++ [(k, v)])%list.
Proof.
  induction o as [|[k' v'] o IH]; simpl; intros Hk; [reflexivity|].
  destruct (String.eqb_spec k k') as [->|_].
  - exfalso. apply Hk. now left.
  - rewrite IH; [reflexivity|]. intros Hin. apply Hk. now right.
Qed.

Lemma fromEntries_from acc (l : list (string * A)) :
  NoDup (Object.keys (acc ++ l)) ->
  fold_left (fun acc e => obj_set (fst e) (snd e) acc) l acc = (acc ++ l)%list.
Proof.
  revert acc. induction l as [|[k v] l IH]; intros acc Hnd; simpl.
  - now rewrite app_nil_r.
  - rewrite obj_set_fresh.
    + rewrite IH; rewrite <- app_assoc; [reflexivity|exact Hnd].
    + unfold Object.keys in Hnd. rewrite map_app in Hnd. simpl in Hnd.
      apply NoDup_remove_2 in Hnd. intros Hin. apply Hnd.
      apply in_or_app. now left.
Qed.

(** On a list of entries with distinct keys, [Object.fromEntries] keeps
    the entries and their order. *)
Lemma Object_fromEntries_wf (l : list (string * A)) :
  wf_obj l -> Object.fromEntries l = l.
Proof. intros H. unfold Object.fromEntries. now rewrite fromEntries_from. Qed.

Lemma spread_wf o : wf_obj o -> spread o = o.
Proof. apply Object_fromEntries_wf. Qed.

Lemma obj_set_other o k v k' v' :
  k' <> k -> In (k', v') o -> In (k', v') (obj_set k v o).
Proof.
  intros Hne. induction o as [|[k0 v0] o IH]; simpl; intros Hin; [contradiction|].
  destruct (String.eqb_spec k k0) as [->|_].
  - destruct Hin as [E|Hin]; [injection E as <- <-; congruence|now right].
  - destruct Hin as [E|Hin]; [now left|right; auto].
Qed.

Lemma obj_set_get o k v : obj_get k (obj_set k v o) = Some v.
Proof.
  induction o as [|[k0 v0] o IH]; simpl.
  - now rewrite String.eqb_refl.
  - destruct (String.eqb_spec k k0) as [->|Hne]; simpl.
    + now rewrite String.eqb_refl.
    + destruct (String.eqb_spec k k0); [contradiction|exact IH].
Qed.

Lemma obj_set_keys o k v k' :
  In k' (Object.keys (obj_set k v o)) <-> k' = k \/ In k' (Object.keys o).
Proof.
  induction o as [|[k0 v0] o IH]; simpl.
  - intuition congruence.
  - destruct (String.eqb_spec k k0) as [->|Hne]; simpl; [intuition congruence|].
    rewrite IH. intuition congruence.
Qed.

(** Reading [values[i]] for every key gives the keys paired with the
    values. *)
Lemma mapi_nth_combine (d : A) (keys : list string) :
  forall (pre vs : list A),
    List.length keys = List.length vs ->
    mapi_from (List.length pre) (fun prop i => (prop, nth i (pre ++ vs) d)) keys
    = combine keys vs.
Proof.
  induction keys as [|k keys IH]; intros pre vs Hlen; simpl; [reflexivity|].
  destruct vs as [|v vs]; [discriminate|]. simpl. f_equal.
  - f_equal. rewrite app_nth2, Nat.sub_diag by lia. reflexivity.
  - specialize (IH (pre ++ [v])%list vs).
    rewrite length_app in IH. simpl in IH. rewrite Nat.add_1_r in IH.
    rewrite <- app_assoc in IH. simpl in IH. apply IH. simpl in Hlen. lia.
Qed.

Lemma Array_map_nth (d : A) (keys : list string) (vs : list A) :
  List.length keys = List.length vs ->
  Array_map (fun prop i => (prop, nth i vs d)) keys = combine keys vs.
Proof. intros H. exact (mapi_nth_combine d keys [] vs H). Qed.
End Objects.

(** ** The settlement engine *)

Lemma settle_each_keys data records :
  settle_each data = Some records -> Object.keys records = Object.keys data.
Proof.
  revert records. induction data as [|[k f] data IH]; simpl; intros records H.
  - now injection H as <-.
  - destruct (outcome_of f); [|discriminate].
    destruct (settle_each data) as [rs|]; [|discriminate].
    injection H as <-. simpl. f_equal. now apply IH.
Qed.

Lemma replace_pending_keys data o :
  replace_pending data = Some o -> Object.keys o = Object.keys data.
Proof.
  revert o. induction data as [|[k f] data IH]; simpl; intros o H.
  - now injection H as <-.
  - destruct (outcome_of f) as [[v|r]|]; try discriminate.
    destruct (replace_pending data) as [o'|]; [|discriminate].
    injection H as <-. simpl. f_equal. now apply IH.
Qed.

Lemma combine_fst_snd {A B} (l : list (A * B)) : combine (map fst l) (map snd l) = l.
Proof. induction l as [|[a b] l IH]; simpl; congruence. Qed.

(** [Promise.allSettled] over the values of a mapping whose computations
    all settle gives the records, in order. *)
Lemma allSettled_settle_each {E} data records :
  settle_each data = Some records ->
  exists t,
    Promise_allSettled (E := E) (map Promise_resolve (Object.values data))
    = Settles t (Fulfilled (Object.values records)).
Proof.
  revert records. induction data as [|[k f] data IH]; simpl; intros records H.
  - injection H as <-. now exists 0.
  - unfold outcome_of in H. destruct (Promise_resolve f) as [t o|]; [|discriminate].
    destruct (settle_each data) as [rs|]; [|discriminate].
    injection H as <-. destruct (IH rs eq_refl) as [t' ->]. simpl. eauto.
Qed.

Lemma allSettled_never {E} data :
  settle_each data = None ->
  Promise_allSettled (E := E) (map Promise_resolve (Object.values data)) = Never.
Proof.
  induction data as [|[k f] data IH]; simpl; intros H; [discriminate|].
  unfold outcome_of in H. destruct (Promise_resolve f) as [t o|]; [|reflexivity].
  destruct (settle_each data) as [rs|]; [discriminate|].
  now rewrite IH.
Qed.

Lemma all_fulfilled_no_rejection data o :
  replace_pending data = Some o ->
  first_rejection (map Promise_resolve (Object.values data)) = None.
Proof.
  revert o. induction data as [|[k f] data IH]; simpl; intros o H; [reflexivity|].
  unfold outcome_of in H. destruct (Promise_resolve f) as [t [v|r]|]; try discriminate.
  destruct (replace_pending data) as [o'|]; [|discriminate]. eauto.
Qed.

Lemma gather_replace_pending data o :
  replace_pending data = Some o ->
  exists t,
    gather (map Promise_resolve (Object.values data))
    = Settles t (Fulfilled (Object.values o)).
Proof.
  revert o. induction data as [|[k f] data IH]; simpl; intros o H.
  - injection H as <-. now exists 0.
  - unfold outcome_of in H. destruct (Promise_resolve f) as [t [v|r]|]; try discriminate.
    destruct (replace_pending data) as [o'|]; [|discriminate].
    injection H as <-. destruct (IH o' eq_refl) as [t' ->]. simpl. eauto.
Qed.

Lemma some_fails_first_rejection data :
  some_fails data = true ->
  exists t e, first_rejection (map Promise_resolve (Object.values data)) = Some (t, e).
Proof.
  induction data as [|[k f] data IH]; simpl; intros H; [discriminate|].
  unfold outcome_of in H.
  destruct (Promise_resolve f) as [t [v|r]|]; simpl in H; auto.
  destruct (first_rejection _) as [[t' e']|]; [destruct (Nat.leb t t')|]; eauto.
Qed.

Lemma no_failure_first_rejection data :
  some_fails data = false ->
  first_rejection (map Promise_resolve (Object.values data)) = None.
Proof.
  induction data as [|[k f] data IH]; simpl; intros H; [reflexivity|].
  apply orb_false_elim in H as [Hf Hrest]. unfold outcome_of in Hf.
  destruct (Promise_resolve f) as [t [v|r]|]; auto. discriminate.
Qed.

Lemma gather_pending data :
  some_fails data = false -> replace_pending data = None ->
  gather (map Promise_resolve (Object.values data)) = Never.
Proof.
  induction data as [|[k f] data IH]; simpl; intros Hs Hr; [discriminate|].
  apply orb_false_elim in Hs as [Hf Hrest]. unfold outcome_of in Hf, Hr.
  destruct (Promise_resolve f) as [t [v|r]|]; try discriminate; [|reflexivity].
  destruct (replace_pending data) as [o'|]; [discriminate|].
  now rewrite IH.
Qed.

(** Fail-fast settlement succeeds with the replaced mapping when every
    pending computation fulfills. *)
Lemma hash_fulfills data o :
  wf_obj data -> replace_pending data = Some o ->
  exists t, hash data = Settles t (Fulfilled o).
Proof.
  intros Hwf Hr. unfold hash, Promise_all.
  rewrite (all_fulfilled_no_rejection _ _ Hr).
  destruct (gather_replace_pending _ _ Hr) as [t ->]. simpl.
  pose proof (replace_pending_keys _ _ Hr) as Hk.
  rewrite Array_map_nth.
  - rewrite <- Hk. unfold Object.keys, Object.values. rewrite combine_fst_snd.
    rewrite Object_fromEntries_wf; [eauto|]. unfold wf_obj. now rewrite Hk.
  - rewrite <- Hk. unfold Object.keys, Object.values. now rewrite !length_map.
Qed.

(** Fail-fast settlement fails as soon as one pending computation fails. *)
Lemma hash_rejects data :
  some_fails data = true -> exists t e, hash data = Settles t (Rejected e).
Proof.
  intros H. destruct (some_fails_first_rejection _ H) as (t & e & Hf).
  unfold hash, Promise_all. rewrite Hf. simpl. eauto.
Qed.

Lemma hash_never data :
  some_fails data = false -> replace_pending data = None -> hash data = Never.
Proof.
  intros Hs Hr. unfold hash, Promise_all.
  rewrite (no_failure_first_rejection _ Hs), (gather_pending _ Hs Hr). reflexivity.
Qed.

(** Settle-each settlement succeeds with one record per key when every
    pending computation settles. *)
Lemma hashSettled_settles {E} data records :
  wf_obj data -> settle_each data = Some records ->
  exists t, hashSettled (E := E) data = Settles t (Fulfilled records).
Proof.
  intros Hwf Hs. unfold hashSettled.
  destruct (allSettled_settle_each (E := E) _ _ Hs) as [t ->]. simpl.
  pose proof (settle_each_keys _ _ Hs) as Hk.
  rewrite Array_map_nth.
  - rewrite <- Hk. unfold Object.keys, Object.values. rewrite combine_fst_snd.
    rewrite Object_fromEntries_wf; [eauto|]. unfold wf_obj. now rewrite Hk.
  - rewrite <- Hk. unfold Object.keys, Object.values. now rewrite !length_map.
Qed.

Lemma hashSettled_never {E} data :
  settle_each data = None -> hashSettled (E := E) data = Never.
Proof. intros H. unfold hashSettled. now rewrite allSettled_never. Qed.

Lemma all_settle_settle_each data :
  all_settle data = true <-> exists records, settle_each data = Some records.
Proof.
  induction data as [|[k f] data IH]; simpl.
  - split; eauto.
  - rewrite andb_true_iff, IH. destruct (outcome_of f).
    + split.
      * intros [_ [rs ->]]. eauto.
      * intros [rs H]. split; [reflexivity|].
        destruct (settle_each data); [eauto|discriminate].
    + split; [intros [? _]; discriminate|intros [? ?]; discriminate].
Qed.

Lemma replace_pending_settle_each data o :
  replace_pending data = Some o -> settle_each data = Some (fulfilled_records o).
Proof.
  revert o. induction data as [|[k f] data IH]; simpl; intros o H.
  - now injection H as <-.
  - destruct (outcome_of f) as [[v|r]|]; try discriminate.
    destruct (replace_pending data) as [o'|]; [|discriminate].
    injection H as <-. now rewrite (IH o' eq_refl).
Qed.

Lemma replace_pending_no_failure data o :
  replace_pending data = Some o -> some_fails data = false.
Proof.
  revert o. induction data as [|[k f] data IH]; simpl; intros o H; [reflexivity|].
  destruct (outcome_of f) as [[v|r]|]; try discriminate.
  destruct (replace_pending data) as [o'|]; [|discriminate]. simpl. eauto.
Qed.

(** ** JSON.stringify: the budget is enough *)

Lemma depth_item x items : In x items -> depth x < depth (VArr items).
Proof.
  simpl. induction items as [|y items IH]; simpl; [contradiction|].
  intros [->|H]; [lia|]. specialize (IH H). lia.
Qed.

Lemma depth_prop p props : In p props -> depth (snd p) < depth (VObj props).
Proof.
  simpl. induction props as [|q props IH]; simpl; [contradiction|].
  intros [->|H]; [lia|]. specialize (IH H). lia.
Qed.

Lemma mapi_from_ext_in {A B} (f g : A -> nat -> B) xs :
  (forall x, In x xs -> forall j, f x j = g x j) ->
  forall i, mapi_from i f xs = mapi_from i g xs.
Proof.
  induction xs as [|x xs IH]; intros H i; simpl; [reflexivity|].
  rewrite (H x (or_introl eq_refl)). f_equal. apply IH. intros y Hy. apply H. now right.
Qed.

Lemma array_parts_defined {A} (f : A -> nat -> Ser) xs :
  (forall x, In x xs -> forall j, f x j <> OutOfFuel) ->
  forall i, array_parts (mapi_from i f xs) <> None.
Proof.
  induction xs as [|x xs IH]; intros H i; simpl; [discriminate|].
  pose proof (H x (or_introl eq_refl) i) as Hx.
  assert (Hrest : array_parts (mapi_from (S i) f xs) <> None)
    by (apply IH; intros y Hy; apply H; now right).
  destruct (f x i); [| |congruence];
    destruct (array_parts (mapi_from (S i) f xs)); simpl; congruence.
Qed.

Lemma array_parts_items {A} (f : A -> nat -> Ser) xs :
  forall i, array_parts (mapi_from i f xs) <> None ->
  forall x, In x xs -> exists j, f x j <> OutOfFuel.
Proof.
  induction xs as [|x xs IH]; intros i H y Hy; simpl in *; [contradiction|].
  destruct Hy as [->|Hy].
  - exists i. destruct (f y i); congruence.
  - apply (IH (S i)); [|exact Hy].
    destruct (f x i); [| |congruence];
      destruct (array_parts (mapi_from (S i) f xs)); simpl in *; congruence.
Qed.

Lemma object_parts_defined (members : list (string * Ser)) :
  (forall m, In m members -> snd m <> OutOfFuel) -> object_parts members <> None.
Proof.
  induction members as [|[k s] members IH]; intros H; simpl; [discriminate|].
  pose proof (H (k, s) (or_introl eq_refl)) as Hs. simpl in Hs.
  assert (Hrest : object_parts members <> None)
    by (apply IH; intros m Hm; apply H; now right).
  destruct s; [|exact Hrest|congruence].
  destruct (object_parts members); simpl; congruence.
Qed.

Lemma object_parts_members (members : list (string * Ser)) :
  object_parts members <> None -> forall m, In m members -> snd m <> OutOfFuel.
Proof.
  induction members as [|[k s] members IH]; intros H m Hm; simpl in *; [contradiction|].
  destruct Hm as [<-|Hm]; simpl.
  - destruct s; congruence.
  - apply IH; [|exact Hm].
    destruct s; [|exact H|congruence].
    destruct (object_parts members); simpl in *; congruence.
Qed.

Lemma wrap_defined l r parts : wrap l r parts <> OutOfFuel <-> parts <> None.
Proof. destruct parts; simpl; split; congruence. Qed.

Lemma array_parts_ext {A} (f g : A -> nat -> Ser) xs :
  (forall x j, f x j <> OutOfFuel -> g x j = f x j) ->
  forall i, array_parts (mapi_from i f xs) <> None ->
            mapi_from i g xs = mapi_from i f xs.
Proof.
  intros Hfg. induction xs as [|x xs IH]; intros i H; simpl in *; [reflexivity|].
  assert (Hx : f x i <> OutOfFuel) by (destruct (f x i); congruence).
  rewrite (Hfg _ _ Hx). f_equal. apply IH.
  destruct (f x i); [| |congruence];
    destruct (array_parts (mapi_from (S i) f xs)); simpl in *; congruence.
Qed.

Lemma object_parts_ext {A} (f g : string * A -> Ser) props :
  (forall p, f p <> OutOfFuel -> g p = f p) ->
  object_parts (map (fun p => (fst p, f p)) props) <> None ->
  map (fun p => (fst p, g p)) props = map (fun p => (fst p, f p)) props.
Proof.
  intros Hfg. induction props as [|p props IH]; intros H; simpl in *; [reflexivity|].
  assert (Hp : f p <> OutOfFuel) by (destruct (f p); congruence).
  rewrite (Hfg _ Hp). f_equal. apply IH.
  destruct (f p); [|exact H|congruence].
  destruct (object_parts (map (fun p => (fst p, f p)) props)); simpl in *; congruence.
Qed.

Lemma serialize_S n rep key v :
  SerializeJSONProperty (S n) rep key v
  = match match rep with Some f => f key v | None => v end with
    | VUndefined => Undef
    | VNull => Str "null"
    | VBool true => Str "true"
    | VBool false => Str "false"
    | VNum z => Str (Number_toString z)
    | VStr s => Str (QuoteJSONString s)
    | VArr items =>
        wrap "[" "]" (array_parts (Array_map
          (fun x i => SerializeJSONProperty n rep (nat_toString i) x) items))
    | VObj props =>
        wrap "{" "}" (object_parts (map
          (fun p => (fst p, SerializeJSONProperty n rep (fst p) (snd p))) props))
    | VError _ _ => Str "{}"
    end.
Proof. reflexivity. Qed.

(** More budget does not change an answer. *)
Lemma serialize_step rep n :
  forall key v,
    SerializeJSONProperty n rep key v <> OutOfFuel ->
    SerializeJSONProperty (S n) rep key v = SerializeJSONProperty n rep key v.
Proof.
  induction n as [|n IH]; intros key v H; [simpl in H; congruence|].
  rewrite (serialize_S (S n)).
  simpl in H |- *.
  destruct (match rep with Some f => f key v | None => v end) as
    [| |b|z|s|items|props|nm msg]; try reflexivity.
  - apply wrap_defined in H. f_equal. f_equal. unfold Array_map in *.
    apply (array_parts_ext
             (fun x i => SerializeJSONProperty n rep (nat_toString i) x)
             (fun x i => SerializeJSONProperty (S n) rep (nat_toString i) x));
      [|exact H].
    intros x j. apply IH.
  - apply wrap_defined in H. f_equal. f_equal.
    apply (object_parts_ext
             (fun p => SerializeJSONProperty n rep (fst p) (snd p))
             (fun p => SerializeJSONProperty (S n) rep (fst p) (snd p)));
      [|exact H].
    intros p. apply IH.
Qed.

Lemma serialize_mono rep n m key v :
  n <= m -> SerializeJSONProperty n rep key v <> OutOfFuel ->
  SerializeJSONProperty m rep key v = SerializeJSONProperty n rep key v.
Proof.
  intros Hle H. induction Hle as [|m Hle IH]; [reflexivity|].
  rewrite serialize_step; [exact IH|]. now rewrite IH.
Qed.

(** With a budget above its depth by two, a value is serialized. *)
Lemma serialize_enough rep :
  module_replacer rep ->
  forall n key v, depth v + 2 <= n -> SerializeJSONProperty n rep key v <> OutOfFuel.
Proof.
  intros Hrep. induction n as [|n IH]; intros key v Hn; [lia|].
  assert (Harr : forall items, depth (VArr items) + 2 <= S n ->
            wrap "[" "]" (array_parts (Array_map
              (fun x i => SerializeJSONProperty n rep (nat_toString i) x) items))
            <> OutOfFuel).
  { intros items Hd. apply wrap_defined. apply array_parts_defined.
    intros x Hx j. apply IH. pose proof (depth_item _ _ Hx). lia. }
  assert (Hobj : forall props, depth (VObj props) + 2 <= S n ->
            wrap "{" "}" (object_parts (map
              (fun p => (fst p, SerializeJSONProperty n rep (fst p) (snd p))) props))
            <> OutOfFuel).
  { intros props Hd. apply wrap_defined. apply object_parts_defined.
    intros m Hm. apply in_map_iff in Hm as (p & <- & Hp). simpl.
    apply IH. pose proof (depth_prop _ _ Hp). lia. }
  destruct Hrep as [-> | ->]; destruct v as [| |[]| | |items|props|nm msg];
    simpl; try discriminate; try (now apply Harr); try (now apply Hobj).
  destruct n as [|n']; [simpl in Hn; lia|]. simpl. discriminate.
Qed.

(** Above that budget the answer is the one [JSON.property] gives. *)
Lemma serialize_stable rep n key v :
  module_replacer rep -> depth v + 2 <= n ->
  SerializeJSONProperty n rep key v = JSON.property rep key v.
Proof.
  intros Hrep Hn. unfold JSON.property. apply serialize_mono; [lia|].
  apply serialize_enough; [exact Hrep|lia].
Qed.

(** An object is serialized as its members, each of them as a property. *)
Lemma json_property_object rep key props :
  module_replacer rep ->
  JSON.property rep key (VObj props)
  = wrap "{" "}" (object_parts
      (map (fun p => (fst p, JSON.property rep (fst p) (snd p))) props)).
Proof.
  intros Hrep. unfold JSON.property at 1.
  assert (E : match rep with Some f => f key (VObj props) | None => VObj props end
              = VObj props) by (destruct Hrep as [-> | ->]; reflexivity).
  rewrite serialize_S, E. f_equal. f_equal.
  apply map_ext_in. intros p Hp. f_equal.
  apply serialize_stable; [exact Hrep|]. pose proof (depth_prop _ _ Hp). lia.
Qed.

(** [JSON.stringify] of an object is always a string. *)
Lemma JSON_stringify_object rep props :
  module_replacer rep -> exists s, JSON.stringify rep (VObj props) = Some s.
Proof.
  intros Hrep. unfold JSON.stringify. rewrite json_property_object by exact Hrep.
  assert (H : object_parts
            (map (fun p => (fst p, JSON.property rep (fst p) (snd p))) props) <> None).
  { apply object_parts_defined. intros m Hm. apply in_map_iff in Hm as (p & <- & Hp).
    simpl. apply serialize_enough; [exact Hrep|lia]. }
  destruct (object_parts _); [simpl; eauto|congruence].
Qed.

(** On a value without [Error] instances the replacer changes nothing. *)
Lemma errorReplacer_error_free n :
  forall key v,
    error_free v = true ->
    SerializeJSONProperty n (Some errorReplacer) key v
    = SerializeJSONProperty n None key v.
Proof.
  induction n as [|n IH]; intros key v Hv; [reflexivity|].
  destruct v as [| |[]| | |items|props|nm msg]; simpl in *; try reflexivity;
    try discriminate.
  - f_equal. f_equal. apply mapi_from_ext_in. intros x Hx j. apply IH.
    rewrite forallb_forall in Hv. now apply Hv.
  - f_equal. f_equal. apply map_ext_in. intros p Hp. f_equal. apply IH.
    rewrite forallb_forall in Hv. now apply Hv.
Qed.

(** ** The heap of responses *)

Lemma deref_alloc (h : Heap) x : deref (List.length h) (h ++ [x]) = Some x.
Proof. unfold deref. rewrite nth_error_app2, Nat.sub_diag by lia. reflexivity. Qed.

Lemma deref_old (h : Heap) x r : r < List.length h -> deref r (h ++ [x]) = deref r h.
Proof. intros H. unfold deref. now rewrite nth_error_app1. Qed.

Lemma deref_fresh (h : Heap) : deref (List.length h) h = None.
Proof. unfold deref. apply nth_error_None. lia. Qed.

Lemma update_last (h : Heap) f x :
  update (List.length h) f (h ++ [x]) = h ++ [f x].
Proof. induction h as [|y h IH]; simpl; [reflexivity|]. now rewrite IH. Qed.

Lemma makeResponse_alloc st b init h :
  makeResponse st b init h
  = (List.length h, h ++ [Response_of b (makeResponse_options st init)]).
Proof. reflexivity. Qed.

(** The deferred response: allocated last, with its [then] installed. *)
Lemma responseFunction_alloc st data init h :
  responseFunction st data init h
  = (List.length h,
     h ++ [set_then {| env_status := st; env_data := data; env_init := init |}
             (Response_of (BStream (provisional_stream data))
                (makeResponse_options st init))]).
Proof.
  unfold responseFunction, bind, modify, ret. rewrite makeResponse_alloc.
  now rewrite update_last.
Qed.

Lemma mapping_operation_binding st op :
  In (st, op) mapping_operations -> op = responseFunction st.
Proof.
  intros H. simpl in H.
  repeat (destruct H as [H|H]; [injection H as <- <-; reflexivity|]).
  contradiction.
Qed.

Lemma redirect_operation_binding st op :
  In (st, op) redirect_operations -> op = redirectFunction st.
Proof.
  intros H. simpl in H.
  repeat (destruct H as [H|H]; [injection H as <- <-; reflexivity|]).
  contradiction.
Qed.

(** Awaiting a deferred response runs its [then] with the continuations of
    the awaiting code. *)
Lemma await_deferred st data init h :
  await_built (responseFunction st data init) h
  = then_ st data init task_resolve Promise_reject
      (snd (responseFunction st data init h)).
Proof.
  unfold await_built. rewrite responseFunction_alloc. simpl snd.
  unfold await_response. now rewrite deref_alloc.
Qed.

(** The three ways the await path ends. *)
Lemma then_fulfilled st data init h t o :
  hash data = Settles t (Fulfilled o) ->
  exists t',
    then_ st data init task_resolve Promise_reject h
    = (Settles t' (Fulfilled (List.length h)),
       h ++ [Response_of (body_of (JSON.stringify None (VObj o)))
               (makeResponse_options st init)]).
Proof.
  intros H. unfold then_, settled_response, task_catch, task_then, task_then2,
    from_promise, returning, after. rewrite H. eexists. reflexivity.
Qed.

Lemma then_rejected st data init h t e t' records :
  hash data = Settles t (Rejected e) ->
  hashSettled (E := Ref) data = Settles t' (Fulfilled records) ->
  exists t'',
    then_ st data init task_resolve Promise_reject h
    = (Settles t'' (Rejected (List.length h)),
       h ++ [Response_of
               (body_of (JSON.stringify (Some errorReplacer) (VObj records)))
               (makeResponse_options 500 init)]).
Proof.
  intros H H'. unfold then_, settled_response, task_catch, task_then, task_then2,
    from_promise, returning, after. rewrite H, H'. eexists. reflexivity.
Qed.

Lemma then_pending st data init h :
  hash data = Never \/
  (exists t e, hash data = Settles t (Rejected e)) /\ hashSettled (E := Ref) data = Never ->
  then_ st data init task_resolve Promise_reject h = (Never, h).
Proof.
  unfold then_, settled_response, task_catch, task_then, task_then2,
    from_promise, returning, after.
  intros [H|[(t & e & H) H']]; rewrite H; [reflexivity|]. now rewrite H'.
Qed.

(** The header list made from a record. *)
Lemma Headers_fill_from (o : Obj string) (hs : Headers) :
  fold_left (fun hs e => Headers_append (fst e) (snd e) hs) o hs
  = hs ++ map (fun e => (lowercase (fst e), snd e)) o.
Proof.
  revert hs. induction o as [|e o IH]; intros hs; simpl.
  - now rewrite app_nil_r.
  - rewrite IH. unfold Headers_append. now rewrite <- app_assoc.
Qed.

Lemma Headers_fill_map (o : Obj string) :
  Headers_fill o = map (fun e => (lowercase (fst e), snd e)) o.
Proof. unfold Headers_fill. now rewrite Headers_fill_from. Qed.

Lemma Headers_fill_In (o : Obj string) k v :
  In (k, v) o -> In (lowercase k, v) (Headers_fill o).
Proof.
  intros H. rewrite Headers_fill_map.
  apply in_map_iff. exists (k, v). auto.
Qed.

Lemma await_response_deferred r h resp env :
  deref r h = Some resp -> own_then resp = Some env ->
  await_response r h
  = then_ (env_status env) (env_data env) (env_init env) task_resolve Promise_reject h.
Proof. intros H E. unfold await_response. now rewrite H, E. Qed.

Lemma plain_data_keys o : Object.keys (plain_data o) = Object.keys o.
Proof.
  unfold plain_data, Object.keys. rewrite map_map. reflexivity.
Qed.

Lemma replace_pending_plain o : replace_pending (plain_data o) = Some o.
Proof.
  induction o as [|[k v] o IH]; simpl; [reflexivity|]. now rewrite IH.
Qed.

(** Every key of the mapping has its record in the settle-each result. *)
Lemma settle_each_In data records k f :
  settle_each data = Some records -> In (k, f) data ->
  exists o, outcome_of f = Some o /\ In (k, settlement_record o) records.
Proof.
  revert records. induction data as [|[k0 f0] data IH]; simpl; intros records H Hin;
    [contradiction|].
  destruct (outcome_of f0) as [o0|] eqn:E0; [|discriminate].
  destruct (settle_each data) as [rs|]; [|discriminate].
  injection H as <-. destruct Hin as [E|Hin].
  - injection E as <- <-. exists o0. split; [exact E0|now left].
  - destruct (IH rs eq_refl Hin) as (o & Ho & Hr). exists o. split; [exact Ho|now right].
Qed.

Lemma provisional_stream_settled data records :
  wf_obj data -> settle_each data = Some records ->
  exists t s,
    JSON.stringify (Some errorReplacer) (VObj records) = Some s
    /\ provisional_stream data = Pushed t [s].
Proof.
  intros Hwf Hs. unfold provisional_stream.
  destruct (hashSettled_settles (E := Value) _ _ Hwf Hs) as [t ->].
  destruct (JSON_stringify_object (Some errorReplacer) records) as [s Hj];
    [now right|].
  exists t, s. rewrite Hj. auto.
Qed.

(** The await path of a mapping whose computations all fulfill. *)
Lemma await_path_fulfills :
  forall st op data init h o r h1,
    In (st, op) mapping_operations ->
    wf_obj data ->
    replace_pending data = Some o ->
    op data init h = (r, h1) ->
    exists t r' h2 resp s,
      await_response r h1 = (Settles t (Fulfilled r'), h2)
      /\ r' <> r
      /\ deref r' h2 = Some resp
      /\ status resp = st
      /\ JSON.stringify None (VObj o) = Some s
      /\ body resp = BText s.
Proof.
  intros st op data init h o r h1 Hop Hwf Hr Hrun.
  rewrite (mapping_operation_binding _ _ Hop), responseFunction_alloc in Hrun.
  injection Hrun as <- <-.
  erewrite await_response_deferred; [|apply deref_alloc|reflexivity]. simpl.
  destruct (hash_fulfills _ _ Hwf Hr) as [t Hh].
  destruct (then_fulfilled st data init (h ++ [set_then
              {| env_status := st; env_data := data; env_init := init |}
              (Response_of (BStream (provisional_stream data))
                 (makeResponse_options st init))]) _ _ Hh) as [t' ->].
  destruct (JSON_stringify_object None o) as [s Hj]; [now left|].
  eexists _, _, _, _, s. split; [reflexivity|].
  split; [rewrite length_app; simpl; lia|].
  split; [apply deref_alloc|]. simpl. rewrite Hj. auto.
Qed.



Lemma Promise_allSettled_fulfills {E} ps :
  forall t (e : E), Promise_allSettled ps <> Settles t (Rejected e).
Proof.
  induction ps as [|[t0 o|] ps IH]; intros t e; simpl; try discriminate.
  destruct (Promise_allSettled ps) as [t' [l|e']|] eqn:Eq; try discriminate.
  intros _. exact (IH t' e' eq_refl).
Qed.

(** The settle-each run never fails. *)
Lemma hashSettled_fulfills {E} data t (e : E) :
  hashSettled data <> Settles t (Rejected e).
Proof.
  unfold hashSettled.
  destruct (Promise_allSettled _) as [t' [l|e']|] eqn:Eq; simpl; try discriminate.
  exfalso. exact (Promise_allSettled_fulfills _ _ _ Eq).
Qed.

Lemma hash_fulfilled_inv data t o :
  wf_obj data -> hash data = Settles t (Fulfilled o) -> replace_pending data = Some o.
Proof.
  intros Hwf H. destruct (replace_pending data) as [o'|] eqn:Hr.
  - destruct (hash_fulfills _ _ Hwf Hr) as [t' H']. congruence.
  - destruct (some_fails data) eqn:Hs.
    + destruct (hash_rejects _ Hs) as (t' & e & H'). congruence.
    + rewrite (hash_never _ Hs Hr) in H. discriminate.
Qed.

Lemma hashSettled_fulfilled_inv {E} data t records :
  wf_obj data -> hashSettled (E := E) data = Settles t (Fulfilled records) ->
  settle_each data = Some records.
Proof.
  intros Hwf H. destruct (settle_each data) as [rs|] eqn:Hs.
  - destruct (hashSettled_settles (E := E) _ _ Hwf Hs) as [t' H']. congruence.
  - rewrite (hashSettled_never _ Hs) in H. discriminate.
Qed.

(** What the await path does to the heap: nothing while it stays pending,
    one allocation when it ends. *)
Lemma then_heap st data init h p h2 :
  then_ st data init task_resolve Promise_reject h = (p, h2) ->
  (p = Never /\ h2 = h)
  \/ exists t x,
       h2 = h ++ [x]
       /\ (p = Settles t (Fulfilled (List.length h))
           \/ p = Settles t (Rejected (List.length h))).
Proof.
  intros H. destruct (hash data) as [t [o|e]|] eqn:Hh.
  - destruct (then_fulfilled st data init h _ _ Hh) as [t' E]. rewrite E in H.
    injection H as <- <-. right. eauto.
  - destruct (hashSettled (E := Ref) data) as [t' [rs|e']|] eqn:Hs.
    + destruct (then_rejected st data init h _ _ _ _ Hh Hs) as [t'' E].
      rewrite E in H. injection H as <- <-. right. eauto.
    + exfalso. exact (hashSettled_fulfills _ _ _ Hs).
    + rewrite then_pending in H by (right; eauto). injection H as <- <-. now left.
  - rewrite then_pending in H by now left. injection H as <- <-. now left.
Qed.

Lemma obj_set_In {A} k (v : A) o : In (k, v) (obj_set k v o).
Proof.
  induction o as [|[k0 v0] o IH]; simpl; [now left|].
  destruct (String.eqb_spec k k0) as [->|_]; [now left|now right].
Qed.

Lemma obj_set_cons {A} k (v : A) k' v' o :
  obj_set k v ((k', v') :: o)
  = if String.eqb k k' then (k', v) :: o else (k', v') :: obj_set k v o.
Proof. reflexivity. Qed.

(** ** Properties of the response builders *)

(** C1.  For a Field Mapping whose pending computations all fulfill,
    awaiting the response of a mapping-based operation yields a new
    response whose status is the operation's fixed status code and whose
    body is the JSON encoding of the mapping with each pending computation
    replaced by its fulfilled value, plain values unchanged. *)
Theorem awaited_response_fulfills :
  forall st op data init h o r h1,
    In (st, op) mapping_operations ->
    wf_obj data ->
    replace_pending data = Some o ->
    op data init h = (r, h1) ->
    exists t r' h2 resp s,
      await_response r h1 = (Settles t (Fulfilled r'), h2)
      /\ r' <> r
      /\ deref r' h2 = Some resp
      /\ status resp = st
      /\ JSON.stringify None (VObj o) = Some s
      /\ body resp = BText s.
Proof. exact await_path_fulfills. Qed.

Lemma awaited_response_fulfills_witness :
  exists t r' h2 resp s,
    await_response 0 (snd (ok [("a", fulfilled_with "a"); ("n", Plain (VNum 7))] None []))
    = (Settles t (Fulfilled r'), h2)
    /\ r' <> 0
    /\ deref r' h2 = Some resp
    /\ status resp = 200%Z
    /\ JSON.stringify None (VObj [("a", VStr "a"); ("n", VNum 7)]) = Some s
    /\ body resp = BText s.
Proof.
  apply (awaited_response_fulfills 200 ok
           [("a", fulfilled_with "a"); ("n", Plain (VNum 7))] None []
           [("a", VStr "a"); ("n", VNum 7)]).
  - simpl. left. reflexivity.
  - distinct_keys.
  - reflexivity.
  - reflexivity.
Defined.

(** C2, as stated: whenever one pending computation fails, awaiting the
    response rejects.  It does not while another computation stays
    pending: the rejection waits for the settle-each run. *)
Lemma rejection_waits_for_every_computation :
  ~ (forall data,
       wf_obj data -> some_fails data = true ->
       exists t r', fst (await_built (ok data None) []) = Settles t (Rejected r')).
Proof.
  intros H.
  destruct (H [("a", Pending (Settles 0 (Rejected (VStr "a")))); ("b", Pending Never)])
    as (t & r' & E).
  - distinct_keys.
  - reflexivity.
  - vm_compute in E. discriminate.
Qed.

(** C2, amended.  For a Field Mapping in which at least one pending
    computation fails and every pending computation settles, awaiting the
    response of a mapping-based operation rejects with a new response of
    status 500 whose body is the JSON encoding, through [errorReplacer], of
    the mapping that gives every key its settlement record. *)
Theorem awaited_response_rejects :
  forall st op data init h records r h1,
    In (st, op) mapping_operations ->
    wf_obj data ->
    some_fails data = true ->
    settle_each data = Some records ->
    op data init h = (r, h1) ->
    exists t r' h2 resp s,
      await_response r h1 = (Settles t (Rejected r'), h2)
      /\ r' <> r
      /\ deref r' h2 = Some resp
      /\ status resp = 500%Z
      /\ Object.keys records = Object.keys data
      /\ (forall k f, In (k, f) data ->
            exists o, outcome_of f = Some o /\ In (k, settlement_record o) records)
      /\ JSON.stringify (Some errorReplacer) (VObj records) = Some s
      /\ body resp = BText s.
Proof.
  intros st op data init h records r h1 Hop Hwf Hf Hs Hrun.
  rewrite (mapping_operation_binding _ _ Hop), responseFunction_alloc in Hrun.
  injection Hrun as <- <-.
  erewrite await_response_deferred; [|apply deref_alloc|reflexivity]. simpl.
  destruct (hash_rejects _ Hf) as (t & e & Hh).
  destruct (hashSettled_settles (E := Ref) _ _ Hwf Hs) as [t' Hh'].
  destruct (then_rejected st data init (h ++ [set_then
              {| env_status := st; env_data := data; env_init := init |}
              (Response_of (BStream (provisional_stream data))
                 (makeResponse_options st init))]) _ _ _ _ Hh Hh') as [t'' ->].
  destruct (JSON_stringify_object (Some errorReplacer) records) as [s Hj]; [now right|].
  eexists _, _, _, _, s. split; [reflexivity|].
  split; [rewrite length_app; simpl; lia|].
  split; [apply deref_alloc|]. simpl. rewrite Hj.
  split; [reflexivity|]. split; [now apply settle_each_keys|].
  split; [|auto]. intros k f Hin. now apply (settle_each_In data).
Qed.

Lemma awaited_response_rejects_witness :
  exists t r' h2 resp s,
    await_response 0
      (snd (notFound [("a", fulfilled_with "a"); ("b", rejected_with (VStr "b"))] None []))
    = (Settles t (Rejected r'), h2)
    /\ r' <> 0
    /\ deref r' h2 = Some resp
    /\ status resp = 500%Z
    /\ Object.keys [("a", settlement_record (Fulfilled (VStr "a")));
                    ("b", settlement_record (Rejected (VStr "b")))]
       = Object.keys [("a", fulfilled_with "a"); ("b", rejected_with (VStr "b"))]
    /\ (forall k f,
          In (k, f) [("a", fulfilled_with "a"); ("b", rejected_with (VStr "b"))] ->
          exists o, outcome_of f = Some o
                    /\ In (k, settlement_record o)
                         [("a", settlement_record (Fulfilled (VStr "a")));
                          ("b", settlement_record (Rejected (VStr "b")))])
    /\ JSON.stringify (Some errorReplacer)
         (VObj [("a", settlement_record (Fulfilled (VStr "a")));
                ("b", settlement_record (Rejected (VStr "b")))]) = Some s
    /\ body resp = BText s.
Proof.
  apply (awaited_response_rejects 404 notFound
           [("a", fulfilled_with "a"); ("b", rejected_with (VStr "b"))] None []).
  - simpl. do 7 right. left. reflexivity.
  - distinct_keys.
  - reflexivity.
  - reflexivity.
  - reflexivity.
Defined.

(** C3, as stated: the response returned without awaiting has a body equal
    to the JSON encoding of the mapping verbatim.  The body of that
    response is the provisional stream, which carries settlement records. *)
Lemma unawaited_body_is_not_verbatim :
  ~ (forall o,
       wf_obj o ->
       exists resp s,
         built (ok (plain_data o) None) [] = Some resp
         /\ status resp = 200%Z
         /\ JSON.stringify None (VObj o) = Some s
         /\ body_text (body resp) = Some s).
Proof.
  intros H. destruct (H [("a", VNum 1)]) as (resp & s & Hb & _ & Hj & Ht).
  - distinct_keys.
  - vm_compute in Hb. injection Hb as <-.
    vm_compute in Hj. injection Hj as <-.
    vm_compute in Ht. discriminate.
Qed.

(** C3, amended.  For a Field Mapping without pending computations, the
    response a mapping-based operation returns has the operation's fixed
    status code and a stream body that delivers the JSON encoding, through
    [errorReplacer], of the mapping with every value wrapped in a fulfilled
    settlement record; awaiting the response yields a response of the same
    status whose body is the JSON encoding of the mapping verbatim. *)
Theorem plain_mapping_responses :
  forall st op o init h,
    In (st, op) mapping_operations ->
    wf_obj o ->
    (exists resp t s,
        built (op (plain_data o) init) h = Some resp
        /\ status resp = st
        /\ JSON.stringify (Some errorReplacer) (VObj (fulfilled_records o)) = Some s
        /\ body resp = BStream (Pushed t [s]))
    /\ (exists t r' h2 resp' s',
           await_built (op (plain_data o) init) h = (Settles t (Fulfilled r'), h2)
           /\ deref r' h2 = Some resp'
           /\ status resp' = st
           /\ JSON.stringify None (VObj o) = Some s'
           /\ body resp' = BText s').
Proof.
  intros st op o init h Hop Hwf.
  assert (Hwf' : wf_obj (plain_data o))
    by (unfold wf_obj; now rewrite plain_data_keys).
  pose proof (replace_pending_plain o) as Hr.
  split.
  - destruct (provisional_stream_settled _ _ Hwf' (replace_pending_settle_each _ _ Hr))
      as (t & s & Hj & Hp).
    rewrite (mapping_operation_binding _ _ Hop). unfold built.
    rewrite responseFunction_alloc, deref_alloc.
    eexists _, t, s. split; [reflexivity|]. simpl. rewrite Hp. auto.
  - unfold await_built.
    destruct (op (plain_data o) init h) as [r h1] eqn:Hrun.
    destruct (await_path_fulfills st op (plain_data o) init h o r h1
                Hop Hwf' Hr Hrun) as (t & r' & h2 & resp & s & Ha & _ & Hd & Hs & Hj & Hb).
    exists t, r', h2, resp, s. auto.
Qed.

Lemma plain_mapping_responses_witness :
  (exists resp t s,
      built (created (plain_data [("id", VNum 1)]) None) [] = Some resp
      /\ status resp = 201%Z
      /\ JSON.stringify (Some errorReplacer)
           (VObj (fulfilled_records [("id", VNum 1)])) = Some s
      /\ body resp = BStream (Pushed t [s]))
  /\ (exists t r' h2 resp' s',
         await_built (created (plain_data [("id", VNum 1)]) None) []
         = (Settles t (Fulfilled r'), h2)
         /\ deref r' h2 = Some resp'
         /\ status resp' = 201%Z
         /\ JSON.stringify None (VObj [("id", VNum 1)]) = Some s'
         /\ body resp' = BText s').
Proof.
  apply (plain_mapping_responses 201 created [("id", VNum 1)] None []).
  - simpl. right. left. reflexivity.
  - distinct_keys.
Defined.

(** C8.  On the empty Field Mapping both settlement policies succeed with
    the empty mapping: [hash] fulfills with no entries and [hashSettled]
    fulfills with no settlement records. *)
Theorem empty_mapping_settles :
  hash [] = Settles 0 (Fulfilled [])
  /\ forall E, hashSettled (E := E) [] = Settles 0 (Fulfilled []).
Proof. split; [reflexivity|intros E; reflexivity]. Qed.

(** C6, as stated: header entries of a configuration object passed to a
    redirect operation appear in the response.  [redirectFunction] declares
    no such parameter, so the object is dropped. *)
Lemma redirect_ignores_configuration :
  ~ (forall url init hs k v,
       init_headers init = Some hs -> In (k, v) hs ->
       exists resp,
         built (call_with_surplus found url (Some init)) [] = Some resp
         /\ In (lowercase k, v) (headers resp)).
Proof.
  intros H.
  destruct (H "/login"
              {| init_status := None; init_statusText := None;
                 init_headers := Some [("X-Trace", "1")] |}
              [("X-Trace", "1")] "X-Trace" "1" eq_refl (or_introl eq_refl))
    as (resp & Hb & Hin).
  vm_compute in Hb. injection Hb as <-. simpl in Hin.
  destruct Hin as [E|[]]. discriminate.
Qed.

(** C7.  Awaiting a deferred response leaves the response that was
    constructed as it is: whatever the Field Mapping, after the await path
    the original object is unchanged, its status being the one fixed at
    construction, and the response the await path produces, fulfilled or
    rejected, is an object that did not exist before and is not the
    original. *)
Theorem await_leaves_original :
  forall st op data init h r h1 p h2,
    In (st, op) mapping_operations ->
    op data init h = (r, h1) ->
    await_response r h1 = (p, h2) ->
    (exists resp,
        deref r h1 = Some resp /\ status resp = st /\ deref r h2 = Some resp)
    /\ (forall t r',
           p = Settles t (Fulfilled r') \/ p = Settles t (Rejected r') ->
           r' <> r /\ deref r' h1 = None /\ exists resp', deref r' h2 = Some resp').
Proof.
  intros st op data init h r h1 p h2 Hop Hrun Hawait.
  rewrite (mapping_operation_binding _ _ Hop), responseFunction_alloc in Hrun.
  injection Hrun as <- <-.
  erewrite await_response_deferred in Hawait; [|apply deref_alloc|reflexivity].
  simpl in Hawait. apply then_heap in Hawait.
  rewrite deref_alloc.
  destruct Hawait as [[-> ->]|(t & x & -> & Hp)].
  - split.
    + eexists. split; [reflexivity|]. split; [reflexivity|apply deref_alloc].
    + intros t r' [E|E]; discriminate.
  - split.
    + eexists. split; [reflexivity|]. split; [reflexivity|].
      rewrite deref_old by (rewrite length_app; simpl; lia). apply deref_alloc.
    + intros t' r' Hr'.
      assert (r' = List.length (h ++ [set_then
                {| env_status := st; env_data := data; env_init := init |}
                (Response_of (BStream (provisional_stream data))
                   (makeResponse_options st init))])) as ->
        by (destruct Hp as [-> | ->], Hr' as [E|E]; congruence).
      split; [rewrite length_app; simpl; lia|].
      split; [apply deref_fresh|]. exists x. apply deref_alloc.
Qed.

Lemma await_leaves_original_witness :
  (exists resp,
      deref 0 (snd (ok [("a", rejected_with (VStr "a"))] None [])) = Some resp
      /\ status resp = 200%Z
      /\ deref 0 (snd (await_response 0 (snd (ok [("a", rejected_with (VStr "a"))] None []))))
         = Some resp)
  /\ (forall t r',
         fst (await_response 0 (snd (ok [("a", rejected_with (VStr "a"))] None [])))
         = Settles t (Fulfilled r')
         \/ fst (await_response 0 (snd (ok [("a", rejected_with (VStr "a"))] None [])))
            = Settles t (Rejected r') ->
         r' <> 0
         /\ deref r' (snd (ok [("a", rejected_with (VStr "a"))] None [])) = None
         /\ exists resp',
              deref r' (snd (await_response 0
                               (snd (ok [("a", rejected_with (VStr "a"))] None []))))
              = Some resp').
Proof.
  apply (await_leaves_original 200 ok [("a", rejected_with (VStr "a"))] None [] 0
           (snd (ok [("a", rejected_with (VStr "a"))] None []))
           (fst (await_response 0 (snd (ok [("a", rejected_with (VStr "a"))] None []))))
           (snd (await_response 0 (snd (ok [("a", rejected_with (VStr "a"))] None []))))).
  - simpl. left. reflexivity.
  - reflexivity.
  - reflexivity.
Defined.


(** C10, at the input on which the code departs from it.  A caller's
    header named [content-type], in lower case, is a property of its own
    next to the [Content-Type] that [makeResponse] writes; the header list
    keeps both, and the response's Content-Type is their two values
    joined, not the JSON type alone. *)
Theorem content_type_in_other_case :
  exists resp,
    built (ok [("a", Plain (VNum 1))]
             (Some {| init_status := None; init_statusText := None;
                      init_headers := Some [("content-type", "text/html")] |})) []
    = Some resp
    /\ status resp = 200%Z
    /\ headers resp
       = [("content-type", "text/html"); ("content-type", json_content_type)]
    /\ Headers_get "Content-Type" (headers resp)
       = Some "text/html, application/json; charset=utf-8".
Proof. eexists. split; [reflexivity|]. repeat split. Qed.

(** What holds of that claim: the status is the fixed one whatever the
    configuration says. *)
Lemma makeResponse_status st b init :
  status (Response_of b (makeResponse_options st init)) = st.
Proof. reflexivity. Qed.

Lemma filter_other_names (hs : Obj string) name :
  (forall k v, In (k, v) hs -> lowercase k <> name) ->
  filter (fun e => String.eqb (fst e) name)
    (map (fun e => (lowercase (fst e), snd e)) hs) = [].
Proof.
  induction hs as [|[k v] hs IH]; intros H; simpl; [reflexivity|].
  destruct (String.eqb_spec (lowercase k) name) as [E|_].
  - exfalso. exact (H k v (or_introl eq_refl) E).
  - apply IH. intros k' v' Hin. apply (H k' v'). now right.
Qed.

(** And a caller's header spelled [Content-Type] is overwritten, when no
    entry names that header in another case. *)
Lemma makeResponse_content_type st b init hs :
  init_headers init = Some hs -> wf_obj hs ->
  (forall k v, In (k, v) hs -> lowercase k = "content-type" -> k = "Content-Type") ->
  Headers_get "Content-Type"
    (headers (Response_of b (makeResponse_options st (Some init))))
  = Some json_content_type.
Proof.
  intros Hhs Hwf Hcase. simpl. rewrite Hhs. simpl. rewrite (spread_wf _ Hwf).
  rewrite Headers_fill_map. unfold Headers_get.
  change (lowercase "Content-Type") with "content-type".
  assert (E : filter (fun e => String.eqb (fst e) "content-type")
                (map (fun e => (lowercase (fst e), snd e))
                   (obj_set "Content-Type" json_content_type hs))
              = [("content-type", json_content_type)]).
  { clear Hhs. induction hs as [|[k v] hs IH]; [reflexivity|].
    rewrite obj_set_cons. destruct (String.eqb_spec "Content-Type" k) as [<-|Hne].
    - cbn [map filter fst snd].
      change (lowercase "Content-Type") with "content-type".
      rewrite String.eqb_refl. f_equal. apply filter_other_names.
      intros k' v' Hin Hl. apply (Hcase k' v') in Hl; [|right; exact Hin]. subst k'.
      unfold wf_obj in Hwf. simpl in Hwf. apply NoDup_cons_iff in Hwf as [Hnot _].
      apply Hnot. apply in_map_iff. exists ("Content-Type", v'). auto.
    - cbn [map filter fst snd].
      destruct (String.eqb_spec (lowercase k) "content-type") as [El|_].
      + exfalso. apply Hne. symmetry. apply (Hcase k v); [now left|exact El].
      + apply IH.
        * unfold wf_obj in Hwf |- *. simpl in Hwf. now apply NoDup_cons_iff in Hwf as [_ ?].
        * intros k' v' Hin. apply (Hcase k' v'). now right. }
  rewrite E. reflexivity.
Qed.

(** ** More on the settlement engine *)

Lemma first_rejection_In {A E} (ps : list (Promise A E)) t e :
  first_rejection ps = Some (t, e) ->
  In (Settles t (Rejected e)) ps
  /\ forall t' e', In (Settles t' (Rejected e')) ps -> t <= t'.
Proof.
  revert t e. induction ps as [|p ps IH]; intros t e H; simpl in *; [discriminate|].
  destruct p as [t0 [a|e0]|].
  - destruct (IH _ _ H) as [Hin Hmin]. split; [now right|].
    intros t' e' [Eq|Hin']; [discriminate|eauto].
  - destruct (first_rejection ps) as [[t1 e1]|] eqn:Hf.
    + destruct (IH _ _ eq_refl) as [Hin Hmin].
      destruct (Nat.leb_spec t0 t1) as [Hle|Hlt]; injection H as <- <-.
      * split; [now left|]. intros t' e' [Eq|Hin'].
        -- injection Eq as <- _. lia.
        -- specialize (Hmin _ _ Hin'). lia.
      * split; [now right|]. intros t' e' [Eq|Hin'].
        -- injection Eq as <- _. lia.
        -- eauto.
    + injection H as <- <-. split; [now left|]. intros t' e' [Eq|Hin'].
      * injection Eq as <- _. lia.
      * exfalso. clear IH. induction ps as [|[t2 [a2|e2]|] ps IHp]; simpl in *.
        -- contradiction.
        -- destruct Hin' as [Eq|Hin']; [discriminate|auto].
        -- destruct (first_rejection ps) as [[t3 e3]|]; [destruct (Nat.leb t2 t3)|];
             discriminate.
        -- destruct Hin' as [Eq|Hin']; [discriminate|auto].
  - destruct (IH _ _ H) as [Hin Hmin]. split; [now right|].
    intros t' e' [Eq|Hin']; [discriminate|eauto].
Qed.

Lemma gather_no_rejection {A E} (ps : list (Promise A E)) :
  first_rejection ps = None -> forall t e, gather ps <> Settles t (Rejected e).
Proof.
  induction ps as [|[t0 [a|e0]|] ps IH]; simpl; intros H t e; try discriminate.
  - destruct (gather ps) as [t1 [l|e1]|] eqn:Hg; try discriminate.
    intros _. exact (IH H t1 e1 eq_refl).
  - destruct (first_rejection ps) as [[t1 e1]|]; [destruct (Nat.leb t0 t1)|];
      discriminate.
Qed.

Lemma resolve_rejected f t e :
  Promise_resolve f = Settles t (Rejected e) -> f = Pending (Settles t (Rejected e)).
Proof. destruct f as [v|p]; simpl; [discriminate|congruence]. Qed.

Lemma hash_rejected_inv data t e :
  hash data = Settles t (Rejected e) ->
  first_rejection (map Promise_resolve (Object.values data)) = Some (t, e).
Proof.
  unfold hash, Promise_all.
  destruct (first_rejection _) as [[t0 e0]|] eqn:Hf; simpl; [congruence|].
  destruct (gather _) as [t1 [l|e1]|] eqn:Hg; simpl; try discriminate.
  intros _. exfalso. exact (gather_no_rejection _ Hf _ _ Hg).
Qed.

Lemma gather_tick data o :
  replace_pending data = Some o ->
  gather (map Promise_resolve (Object.values data))
  = Settles (last_tick data) (Fulfilled (Object.values o)).
Proof.
  revert o. induction data as [|[k f] data IH]; simpl; intros o H.
  - now injection H as <-.
  - unfold outcome_of in H. destruct (Promise_resolve f) as [t [v|r]|]; try discriminate.
    destruct (replace_pending data) as [o'|]; [|discriminate].
    injection H as <-. now rewrite (IH o' eq_refl).
Qed.

Lemma allSettled_tick {E} data records :
  settle_each data = Some records ->
  Promise_allSettled (E := E) (map Promise_resolve (Object.values data))
  = Settles (last_tick data) (Fulfilled (Object.values records)).
Proof.
  revert records. induction data as [|[k f] data IH]; simpl; intros records H.
  - now injection H as <-.
  - unfold outcome_of in H. destruct (Promise_resolve f) as [t o|]; [|discriminate].
    destruct (settle_each data) as [rs|]; [|discriminate].
    injection H as <-. now rewrite (IH rs eq_refl).
Qed.

Lemma hash_tick data o :
  wf_obj data -> replace_pending data = Some o ->
  hash data = Settles (last_tick data) (Fulfilled o).
Proof.
  intros Hwf Hr. unfold hash, Promise_all.
  rewrite (all_fulfilled_no_rejection _ _ Hr), (gather_tick _ _ Hr). simpl.
  pose proof (replace_pending_keys _ _ Hr) as Hk.
  rewrite Nat.max_0_r, Array_map_nth.
  - rewrite <- Hk. unfold Object.keys, Object.values. rewrite combine_fst_snd.
    rewrite Object_fromEntries_wf; [reflexivity|]. unfold wf_obj. now rewrite Hk.
  - rewrite <- Hk. unfold Object.keys, Object.values. now rewrite !length_map.
Qed.

Lemma hashSettled_tick {E} data records :
  wf_obj data -> settle_each data = Some records ->
  hashSettled (E := E) data = Settles (last_tick data) (Fulfilled records).
Proof.
  intros Hwf Hs. unfold hashSettled. rewrite (allSettled_tick _ _ Hs). simpl.
  pose proof (settle_each_keys _ _ Hs) as Hk.
  rewrite Nat.max_0_r, Array_map_nth.
  - rewrite <- Hk. unfold Object.keys, Object.values. rewrite combine_fst_snd.
    rewrite Object_fromEntries_wf; [reflexivity|]. unfold wf_obj. now rewrite Hk.
  - rewrite <- Hk. unfold Object.keys, Object.values. now rewrite !length_map.
Qed.

Lemma settled_before_last data k f t o :
  In (k, f) data -> Promise_resolve f = Settles t o -> t <= last_tick data.
Proof.
  induction data as [|[k0 f0] data IH]; simpl; intros Hin Hf; [contradiction|].
  destruct Hin as [E|Hin].
  - injection E as -> ->. rewrite Hf. lia.
  - specialize (IH Hin Hf). destruct (Promise_resolve f0); lia.
Qed.

Lemma all_settle_false data :
  all_settle data = false -> settle_each data = None.
Proof.
  intros H. destruct (settle_each data) as [rs|] eqn:Hs; [|reflexivity].
  assert (all_settle data = true) by (apply all_settle_settle_each; eauto).
  congruence.
Qed.

Lemma in_values_data data p :
  In p (map Promise_resolve (Object.values data)) ->
  exists k f, In (k, f) data /\ Promise_resolve f = p.
Proof.
  unfold Object.values. rewrite map_map. intros H.
  apply in_map_iff in H as ([k f] & E & Hin). eauto.
Qed.

Lemma obj_get_In {A} (o : Obj A) k v :
  wf_obj o -> In (k, v) o -> obj_get k o = Some v.
Proof.
  unfold wf_obj. induction o as [|[k0 v0] o IH]; simpl; intros Hnd Hin; [contradiction|].
  apply NoDup_cons_iff in Hnd as [Hnot Hnd].
  destruct Hin as [E|Hin].
  - injection E as -> ->. now rewrite String.eqb_refl.
  - destruct (String.eqb_spec k k0) as [->|_]; [|auto].
    exfalso. apply Hnot. apply in_map_iff. exists (k0, v). auto.
Qed.

Lemma obj_get_missing {A} (o : Obj A) k :
  ~ In k (Object.keys o) -> obj_get k o = None.
Proof.
  induction o as [|[k0 v0] o IH]; simpl; intros H; [reflexivity|].
  destruct (String.eqb_spec k k0) as [->|_]; [exfalso; auto|auto].
Qed.

Lemma replace_pending_In data o k f :
  replace_pending data = Some o -> In (k, f) data ->
  exists v, outcome_of f = Some (Fulfilled v) /\ In (k, v) o.
Proof.
  revert o. induction data as [|[k0 f0] data IH]; simpl; intros o H Hin; [contradiction|].
  destruct (outcome_of f0) as [[v0|r0]|] eqn:E0; try discriminate.
  destruct (replace_pending data) as [o'|]; [|discriminate].
  injection H as <-. destruct Hin as [E|Hin].
  - injection E as <- <-. exists v0. split; [exact E0|now left].
  - destruct (IH o' eq_refl Hin) as (v & Hv & Hi). exists v. split; [exact Hv|now right].
Qed.

(** ** Further properties: the settlement engine *)

(** X1.  [hash] fails exactly when some pending computation fails, also
    while other computations are still pending.  It then fails at the tick
    and with the reason of the earliest failure of the mapping. *)
Theorem hash_fails_fast :
  forall data,
    (some_fails data = true <-> exists t e, hash data = Settles t (Rejected e))
    /\ (forall t e,
           hash data = Settles t (Rejected e) ->
           (exists k, In (k, Pending (Settles t (Rejected e))) data)
           /\ forall k' t' e',
                In (k', Pending (Settles t' (Rejected e'))) data -> t <= t').
Proof.
  intros data.
  assert (Hinv : forall t e,
             hash data = Settles t (Rejected e) ->
             (exists k, In (k, Pending (Settles t (Rejected e))) data)
             /\ forall k' t' e',
                  In (k', Pending (Settles t' (Rejected e'))) data -> t <= t').
  { intros t e H. apply hash_rejected_inv in H.
    destruct (first_rejection_In _ _ _ H) as [Hin Hmin]. split.
    - apply in_values_data in Hin as (k & f & Hin & Hf).
      apply resolve_rejected in Hf. subst f. eauto.
    - intros k' t' e' Hin'. apply (Hmin t' e').
      unfold Object.values. rewrite map_map. apply in_map_iff.
      exists (k', Pending (Settles t' (Rejected e'))). auto. }
  split; [split|exact Hinv].
  - apply hash_rejects.
  - intros (t & e & H). destruct (Hinv _ _ H) as [[k Hin] _].
    unfold some_fails. apply existsb_exists.
    exists (k, Pending (Settles t (Rejected e))). auto.
Qed.

Lemma hash_fails_fast_witness :
  (exists k, In (k, Pending (Settles 1 (Rejected (VStr "early"))))
               [("a", Pending (Settles 3 (Rejected (VStr "late"))));
                ("b", Pending Never);
                ("c", Pending (Settles 1 (Rejected (VStr "early"))))])
  /\ forall k' t' e',
       In (k', Pending (Settles t' (Rejected e')))
          [("a", Pending (Settles 3 (Rejected (VStr "late"))));
           ("b", Pending Never);
           ("c", Pending (Settles 1 (Rejected (VStr "early"))))] -> 1 <= t'.
Proof.
  apply (proj2 (hash_fails_fast
                  [("a", Pending (Settles 3 (Rejected (VStr "late"))));
                   ("b", Pending Never);
                   ("c", Pending (Settles 1 (Rejected (VStr "early"))))])
           1 (VStr "early")).
  reflexivity.
Defined.

(** X2.  On a mapping with distinct keys, [hash] fulfills exactly when
    every value is plain or fulfills; it does so at the tick of the last
    computation, with the fulfilled values under the keys of the mapping,
    in their order. *)
Theorem hash_fulfills_iff :
  forall data t o,
    wf_obj data ->
    (hash data = Settles t (Fulfilled o)
     <-> replace_pending data = Some o /\ t = last_tick data)
    /\ (hash data = Settles t (Fulfilled o) -> Object.keys o = Object.keys data).
Proof.
  intros data t o Hwf.
  assert (Hto : hash data = Settles t (Fulfilled o) ->
                replace_pending data = Some o /\ t = last_tick data).
  { intros H. pose proof (hash_fulfilled_inv _ _ _ Hwf H) as Hr.
    rewrite (hash_tick _ _ Hwf Hr) in H. split; [exact Hr|congruence]. }
  split; [split; [exact Hto|]|].
  - intros [Hr ->]. now apply hash_tick.
  - intros H. apply replace_pending_keys. now apply Hto.
Qed.

Lemma hash_fulfills_iff_witness :
  hash [("a", Pending (Settles 2 (Fulfilled (VNum 1)))); ("b", Plain VNull)]
  = Settles 2 (Fulfilled [("a", VNum 1); ("b", VNull)])
  <-> replace_pending
        [("a", Pending (Settles 2 (Fulfilled (VNum 1)))); ("b", Plain VNull)]
      = Some [("a", VNum 1); ("b", VNull)]
      /\ 2 = last_tick
               [("a", Pending (Settles 2 (Fulfilled (VNum 1)))); ("b", Plain VNull)].
Proof.
  apply (hash_fulfills_iff
           [("a", Pending (Settles 2 (Fulfilled (VNum 1)))); ("b", Plain VNull)]
           2 [("a", VNum 1); ("b", VNull)]).
  distinct_keys.
Defined.

(** X3.  [hashSettled] never fails.  It stays pending when some
    computation never settles; otherwise it fulfills at the tick of the
    last computation with one settlement record under each key of the
    mapping, in order. *)
Theorem hashSettled_never_fails :
  forall (E : Type) data,
    (forall t (e : E), hashSettled data <> Settles t (Rejected e))
    /\ (all_settle data = false -> hashSettled (E := E) data = Never)
    /\ (wf_obj data -> all_settle data = true ->
        exists records,
          settle_each data = Some records
          /\ Object.keys records = Object.keys data
          /\ hashSettled (E := E) data = Settles (last_tick data) (Fulfilled records)).
Proof.
  intros E data. split; [|split].
  - intros t e. apply hashSettled_fulfills.
  - intros H. apply hashSettled_never. now apply all_settle_false.
  - intros Hwf H. apply all_settle_settle_each in H as [records Hs].
    exists records. split; [exact Hs|]. split; [now apply settle_each_keys|].
    now apply hashSettled_tick.
Qed.

Lemma hashSettled_never_fails_witness :
  exists records,
    settle_each [("a", rejected_with (VStr "no")); ("b", Plain VNull)] = Some records
    /\ Object.keys records
       = Object.keys [("a", rejected_with (VStr "no")); ("b", Plain VNull)]
    /\ hashSettled (E := Value) [("a", rejected_with (VStr "no")); ("b", Plain VNull)]
       = Settles (last_tick [("a", rejected_with (VStr "no")); ("b", Plain VNull)])
           (Fulfilled records).
Proof.
  apply (proj2 (proj2 (hashSettled_never_fails Value
                         [("a", rejected_with (VStr "no")); ("b", Plain VNull)]))).
  - distinct_keys.
  - reflexivity.
Defined.

(** X4.  Looking a key up in the result of a settlement.  In the result
    of [hash] a key of the mapping gives the fulfilled value of its
    computation, in the result of [hashSettled] the record of its outcome;
    in both, a key that is not in the mapping gives nothing. *)
Theorem settlement_lookup :
  forall data,
    wf_obj data ->
    (forall t o,
        hash data = Settles t (Fulfilled o) ->
        (forall k f, In (k, f) data ->
           exists v, outcome_of f = Some (Fulfilled v) /\ obj_get k o = Some v)
        /\ (forall k, ~ In k (Object.keys data) -> obj_get k o = None))
    /\ (forall t records,
           hashSettled (E := Value) data = Settles t (Fulfilled records) ->
           (forall k f, In (k, f) data ->
              exists out, outcome_of f = Some out
                          /\ obj_get k records = Some (settlement_record out))
           /\ (forall k, ~ In k (Object.keys data) -> obj_get k records = None)).
Proof.
  intros data Hwf. split.
  - intros t o H. apply (hash_fulfilled_inv _ _ _ Hwf) in H.
    pose proof (replace_pending_keys _ _ H) as Hk. split.
    + intros k f Hin. destruct (replace_pending_In _ _ _ _ H Hin) as (v & Hv & Hi).
      exists v. split; [exact Hv|]. apply obj_get_In; [|exact Hi].
      unfold wf_obj. now rewrite Hk.
    + intros k Hk'. apply obj_get_missing. now rewrite Hk.
  - intros t records H. apply (hashSettled_fulfilled_inv _ _ _ Hwf) in H.
    pose proof (settle_each_keys _ _ H) as Hk. split.
    + intros k f Hin. destruct (settle_each_In _ _ _ _ H Hin) as (out & Ho & Hi).
      exists out. split; [exact Ho|]. apply obj_get_In; [|exact Hi].
      unfold wf_obj. now rewrite Hk.
    + intros k Hk'. apply obj_get_missing. now rewrite Hk.
Qed.

Lemma settlement_lookup_witness :
  (forall k f,
      In (k, f) [("a", fulfilled_with "x"); ("b", Plain (VNum 2))] ->
      exists v, outcome_of f = Some (Fulfilled v)
                /\ obj_get k [("a", VStr "x"); ("b", VNum 2)] = Some v)
  /\ (forall k,
         ~ In k (Object.keys [("a", fulfilled_with "x"); ("b", Plain (VNum 2))]) ->
         obj_get k [("a", VStr "x"); ("b", VNum 2)] = None).
Proof.
  apply (proj1 (settlement_lookup
                  [("a", fulfilled_with "x"); ("b", Plain (VNum 2))]
                  ltac:(distinct_keys))
           1 [("a", VStr "x"); ("b", VNum 2)]).
  reflexivity.
Defined.

(** ** More on the await path *)

Lemma then_fulfilled_tick st data init h t o :
  hash data = Settles t (Fulfilled o) ->
  then_ st data init task_resolve Promise_reject h
  = (Settles t (Fulfilled (List.length h)),
     h ++ [Response_of (body_of (JSON.stringify None (VObj o)))
             (makeResponse_options st init)]).
Proof.
  intros H. unfold then_, settled_response, task_catch, task_then, task_then2,
    from_promise, returning, after. rewrite H. simpl.
  now rewrite !Nat.max_0_r.
Qed.

Lemma then_rejected_tick st data init h t e t' records :
  hash data = Settles t (Rejected e) ->
  hashSettled (E := Ref) data = Settles t' (Fulfilled records) ->
  t <= t' ->
  then_ st data init task_resolve Promise_reject h
  = (Settles t' (Rejected (List.length h)),
     h ++ [Response_of
             (body_of (JSON.stringify (Some errorReplacer) (VObj records)))
             (makeResponse_options 500 init)]).
Proof.
  intros H H' Hle. unfold then_, settled_response, task_catch, task_then, task_then2,
    from_promise, returning, after. rewrite H, H'. simpl.
  rewrite !Nat.max_0_r, Nat.max_r by lia. reflexivity.
Qed.

Lemma first_failure_before_last data t e :
  hash data = Settles t (Rejected e) -> t <= last_tick data.
Proof.
  intros H. apply hash_rejected_inv in H.
  destruct (first_rejection_In _ _ _ H) as [Hin _].
  apply in_values_data in Hin as (k & f & Hin & Hf).
  exact (settled_before_last _ _ _ _ _ Hin Hf).
Qed.

Lemma settled_without_failure data :
  all_settle data = true -> some_fails data = false ->
  exists o, replace_pending data = Some o.
Proof.
  induction data as [|[k f] data IH]; simpl; intros Ha Hs; [eauto|].
  apply andb_true_iff in Ha as [Hf Ha]. apply orb_false_elim in Hs as [Hr Hs].
  destruct (IH Ha Hs) as [o ->].
  destruct (outcome_of f) as [[v|r]|]; try discriminate. eauto.
Qed.

(** What the await path does is the same on every heap: it stays pending,
    or it allocates one response that has no [then] of its own. *)
Lemma then_on_any_heap st data init h p h2 :
  then_ st data init task_resolve Promise_reject h = (p, h2) ->
  (p = Never /\ h2 = h
   /\ forall h', then_ st data init task_resolve Promise_reject h' = (Never, h'))
  \/ exists t x st',
       h2 = h ++ [x]
       /\ (exists b, x = Response_of b (makeResponse_options st' init))
       /\ ((p = Settles t (Fulfilled (List.length h))
            /\ forall h', then_ st data init task_resolve Promise_reject h'
                          = (Settles t (Fulfilled (List.length h')), h' ++ [x]))
           \/ (p = Settles t (Rejected (List.length h))
               /\ forall h', then_ st data init task_resolve Promise_reject h'
                             = (Settles t (Rejected (List.length h')), h' ++ [x]))).
Proof.
  intros H. destruct (hash data) as [t [o|e]|] eqn:Hh.
  - rewrite (then_fulfilled_tick _ _ _ _ _ _ Hh) in H. injection H as <- <-.
    right. eexists t, _, st. split; [reflexivity|]. split; [eauto|]. left.
    split; [reflexivity|]. intros h'. now apply then_fulfilled_tick.
  - destruct (hashSettled (E := Ref) data) as [t' [rs|e']|] eqn:Hs.
    + destruct (then_rejected st data init h _ _ _ _ Hh Hs) as [t'' E].
      rewrite E in H. injection H as <- <-.
      right. eexists t'', _, 500%Z. split; [reflexivity|]. split; [eauto|]. right.
      split; [reflexivity|]. intros h'.
      destruct (then_rejected st data init h' _ _ _ _ Hh Hs) as [t3 E'].
      rewrite E'. f_equal. f_equal.
      unfold then_, settled_response, task_catch, task_then, task_then2,
        from_promise, returning, after in E, E'.
      rewrite Hh, Hs in E, E'. simpl in E, E'. congruence.
    + exfalso. exact (hashSettled_fulfills _ _ _ Hs).
    + rewrite then_pending in H by (right; eauto). injection H as <- <-. left.
      split; [reflexivity|]. split; [reflexivity|]. intros h'.
      apply then_pending. right. eauto.
  - rewrite then_pending in H by now left. injection H as <- <-. left.
    split; [reflexivity|]. split; [reflexivity|]. intros h'.
    apply then_pending. now left.
Qed.

Lemma spread_headers_default (init : option Init) :
  spread_headers init = spread (default [] (init_headers (default empty_init init))).
Proof. destruct init; reflexivity. Qed.

(** Where the JSON content type is the only entry of its name. *)
Lemma content_type_entry (hs : Obj string) :
  wf_obj hs ->
  (forall k v, In (k, v) hs -> lowercase k = "content-type" -> k = "Content-Type") ->
  filter (fun e => String.eqb (fst e) "content-type")
    (map (fun e => (lowercase (fst e), snd e))
       (obj_set "Content-Type" json_content_type hs))
  = [("content-type", json_content_type)].
Proof.
  intros Hwf Hcase. induction hs as [|[k v] hs IH]; [reflexivity|].
  rewrite obj_set_cons. destruct (String.eqb_spec "Content-Type" k) as [<-|Hne].
  - cbn [map filter fst snd].
    change (lowercase "Content-Type") with "content-type".
    rewrite String.eqb_refl. f_equal. apply filter_other_names.
    intros k' v' Hin Hl. apply (Hcase k' v') in Hl; [|right; exact Hin]. subst k'.
    unfold wf_obj in Hwf. simpl in Hwf. apply NoDup_cons_iff in Hwf as [Hnot _].
    apply Hnot. apply in_map_iff. exists ("Content-Type", v'). auto.
  - cbn [map filter fst snd].
    destruct (String.eqb_spec (lowercase k) "content-type") as [El|_].
    + exfalso. apply Hne. symmetry. apply (Hcase k v); [now left|exact El].
    + apply IH.
      * unfold wf_obj in Hwf |- *. simpl in Hwf. now apply NoDup_cons_iff in Hwf as [_ ?].
      * intros k' v' Hin. apply (Hcase k' v'). now right.
Qed.

(** ** Further properties: the deferred response *)

(** X5.  The response a mapping-based operation returns keeps the
    operation's status also when computations fail.  Its stream body is
    filled once, at the tick of the last computation, with the JSON text
    of the settlement records; it is never filled when some computation
    never settles. *)
Theorem returned_response_keeps_status :
  forall st op data init h,
    In (st, op) mapping_operations ->
    wf_obj data ->
    exists resp,
      built (op data init) h = Some resp
      /\ status resp = st
      /\ (forall records,
             settle_each data = Some records ->
             exists s,
               JSON.stringify (Some errorReplacer) (VObj records) = Some s
               /\ body resp = BStream (Pushed (last_tick data) [s]))
      /\ (all_settle data = false -> body resp = BStream Silent).
Proof.
  intros st op data init h Hop Hwf.
  rewrite (mapping_operation_binding _ _ Hop). unfold built.
  rewrite responseFunction_alloc, deref_alloc.
  eexists. split; [reflexivity|]. split; [reflexivity|]. simpl. split.
  - intros records Hs.
    destruct (JSON_stringify_object (Some errorReplacer) records) as [s Hj];
      [now right|].
    exists s. split; [exact Hj|]. unfold provisional_stream.
    now rewrite (hashSettled_tick (E := Value) _ _ Hwf Hs), Hj.
  - intros Ha. unfold provisional_stream.
    now rewrite (hashSettled_never (E := Value) _ (all_settle_false _ Ha)).
Qed.

Lemma returned_response_keeps_status_witness :
  exists resp,
    built (notFound [("a", rejected_with (VStr "gone")); ("b", fulfilled_with "b")] None) []
    = Some resp
    /\ status resp = 404%Z
    /\ (forall records,
           settle_each [("a", rejected_with (VStr "gone")); ("b", fulfilled_with "b")]
           = Some records ->
           exists s,
             JSON.stringify (Some errorReplacer) (VObj records) = Some s
             /\ body resp
                = BStream (Pushed
                    (last_tick [("a", rejected_with (VStr "gone"));
                                ("b", fulfilled_with "b")]) [s]))
    /\ (all_settle [("a", rejected_with (VStr "gone")); ("b", fulfilled_with "b")] = false ->
        body resp = BStream Silent).
Proof.
  apply (returned_response_keeps_status 404 notFound
           [("a", rejected_with (VStr "gone")); ("b", fulfilled_with "b")] None []).
  - simpl. do 7 right. left. reflexivity.
  - distinct_keys.
Defined.

(** X6.  Awaiting the response of a mapping-based operation settles
    exactly when every computation of the mapping settles, and then at the
    tick of the last one: a rejection is delivered only after all
    computations have settled.  While one of them stays pending the await
    stays pending and allocates nothing. *)
Theorem await_settles_with_last :
  forall st op data init h r h1,
    In (st, op) mapping_operations ->
    wf_obj data ->
    op data init h = (r, h1) ->
    (all_settle data = true ->
     exists r' h2,
       await_response r h1
       = (Settles (last_tick data)
            (if some_fails data then Rejected r' else Fulfilled r'), h2))
    /\ (all_settle data = false -> await_response r h1 = (Never, h1)).
Proof.
  intros st op data init h r h1 Hop Hwf Hrun.
  rewrite (mapping_operation_binding _ _ Hop), responseFunction_alloc in Hrun.
  injection Hrun as <- <-.
  erewrite await_response_deferred; [|apply deref_alloc|reflexivity]. simpl.
  split; intros Ha.
  - destruct (some_fails data) eqn:Hf.
    + destruct (hash_rejects _ Hf) as (t & e & Hh).
      apply all_settle_settle_each in Ha as [records Hs].
      erewrite then_rejected_tick;
        [eauto|exact Hh|exact (hashSettled_tick _ _ Hwf Hs)|].
      now apply (first_failure_before_last data t e).
    + destruct (settled_without_failure _ Ha Hf) as [o Hr].
      erewrite then_fulfilled_tick; [eauto|exact (hash_tick _ _ Hwf Hr)].
  - apply then_pending. destruct (some_fails data) eqn:Hf.
    + right. split; [now apply hash_rejects|].
      apply hashSettled_never. now apply all_settle_false.
    + left. apply hash_never; [exact Hf|].
      destruct (replace_pending data) as [o|] eqn:Hr; [|reflexivity].
      apply replace_pending_settle_each in Hr.
      rewrite (all_settle_false _ Ha) in Hr. discriminate.
Qed.

Lemma await_settles_with_last_witness :
  exists r' h2,
    await_response 0
      (snd (ok [("a", Pending (Settles 1 (Rejected (VStr "a"))));
                ("b", Pending (Settles 5 (Fulfilled (VStr "b"))))] None []))
    = (Settles
         (last_tick [("a", Pending (Settles 1 (Rejected (VStr "a"))));
                     ("b", Pending (Settles 5 (Fulfilled (VStr "b"))))])
         (if some_fails [("a", Pending (Settles 1 (Rejected (VStr "a"))));
                         ("b", Pending (Settles 5 (Fulfilled (VStr "b"))))]
          then Rejected r' else Fulfilled r'), h2).
Proof.
  apply (proj1 (await_settles_with_last 200 ok
                  [("a", Pending (Settles 1 (Rejected (VStr "a"))));
                   ("b", Pending (Settles 5 (Fulfilled (VStr "b"))))] None [] 0 _
                  (or_introl eq_refl) ltac:(distinct_keys) eq_refl)).
  reflexivity.
Defined.

(** X7.  The response an await produces has no [then] of its own, so
    awaiting it gives it back at once and allocates nothing.  It carries
    the headers and the status text of the response that was returned.
    Awaiting the returned response a second time settles the same way, at
    the same tick, with another new response of the same content. *)
Theorem awaited_response_is_plain :
  forall st op data init h r h1 p h2 r',
    In (st, op) mapping_operations ->
    op data init h = (r, h1) ->
    await_response r h1 = (p, h2) ->
    settled_ref p = Some r' ->
    (exists resp original,
        deref r' h2 = Some resp
        /\ deref r h2 = Some original
        /\ own_then resp = None
        /\ headers resp = headers original
        /\ statusText resp = statusText original)
    /\ await_response r' h2 = (resolved r', h2)
    /\ (exists p2 r'' h3,
           await_response r h2 = (p2, h3)
           /\ settled_ref p2 = Some r''
           /\ r'' <> r' /\ r'' <> r
           /\ deref r'' h3 = deref r' h2
           /\ ((exists t, p = Settles t (Fulfilled r') /\ p2 = Settles t (Fulfilled r''))
               \/ (exists t, p = Settles t (Rejected r') /\ p2 = Settles t (Rejected r'')))).
Proof.
  intros st op data init h r h1 p h2 r' Hop Hrun Hawait Hp.
  rewrite (mapping_operation_binding _ _ Hop), responseFunction_alloc in Hrun.
  injection Hrun as <- <-.
  set (orig := set_then {| env_status := st; env_data := data; env_init := init |}
                 (Response_of (BStream (provisional_stream data))
                    (makeResponse_options st init))) in *.
  erewrite await_response_deferred in Hawait; [|apply deref_alloc|reflexivity].
  simpl in Hawait. apply then_on_any_heap in Hawait.
  destruct Hawait as [(-> & _)|(t & x & st' & -> & [b ->] & Hcases)]; [discriminate|].
  assert (Hr' : r' = List.length (h ++ [orig]))
    by (destruct Hcases as [[-> _]|[-> _]]; simpl in Hp; congruence).
  subst r'.
  assert (Hlen : List.length (h ++ [orig]) = S (List.length h))
    by (rewrite length_app; simpl; lia).
  assert (Horig : deref (List.length h)
                    ((h ++ [orig]) ++ [Response_of b (makeResponse_options st' init)])
                  = Some orig)
    by (rewrite deref_old by lia; apply deref_alloc).
  split; [|split].
  - exists (Response_of b (makeResponse_options st' init)), orig.
    split; [apply deref_alloc|]. split; [exact Horig|]. repeat split.
  - unfold await_response. now rewrite deref_alloc.
  - erewrite await_response_deferred; [|exact Horig|reflexivity]. simpl.
    assert (Hlen2 : List.length ((h ++ [orig]) ++ [Response_of b (makeResponse_options st' init)])
                    = S (S (List.length h)))
      by (rewrite length_app; simpl; lia).
    destruct Hcases as [[-> Hall]|[-> Hall]]; rewrite Hall;
      eexists _, _, _; (split; [reflexivity|]); simpl;
      (split; [reflexivity|]); (split; [lia|]); (split; [lia|]);
      (split; [now rewrite !deref_alloc|]); [left|right]; eauto.
Qed.

Lemma awaited_response_is_plain_witness :
  await_response 1
    (snd (await_response 0 (snd (ok [("a", rejected_with (VStr "a"))] None []))))
  = (resolved 1,
     snd (await_response 0 (snd (ok [("a", rejected_with (VStr "a"))] None [])))).
Proof.
  apply (awaited_response_is_plain 200 ok [("a", rejected_with (VStr "a"))] None [] 0
           (snd (ok [("a", rejected_with (VStr "a"))] None []))
           (fst (await_response 0 (snd (ok [("a", rejected_with (VStr "a"))] None []))))
           (snd (await_response 0 (snd (ok [("a", rejected_with (VStr "a"))] None []))))
           1).
  - simpl. left. reflexivity.
  - reflexivity.
  - reflexivity.
  - reflexivity.
Defined.

(** ** Further properties: what the builders write *)

(** X9.  Whatever the configuration object holds, also a status of its
    own, the response of a mapping-based operation has the operation's
    status and the status text of the configuration.  When the caller's
    headers name Content-Type in that spelling or not at all, the
    response's Content-Type is the JSON type alone; without caller's
    headers it is the only header. *)
Theorem builder_status_and_content_type :
  forall st op data init h,
    In (st, op) mapping_operations ->
    exists resp,
      built (op data init) h = Some resp
      /\ status resp = st
      /\ statusText resp
         = default EmptyString (init_statusText (default empty_init init))
      /\ (init_headers (default empty_init init) = None ->
          headers resp = [("content-type", json_content_type)])
      /\ (forall hs,
             default [] (init_headers (default empty_init init)) = hs ->
             wf_obj hs ->
             (forall k v, In (k, v) hs ->
                lowercase k = "content-type" -> k = "Content-Type") ->
             Headers_get "Content-Type" (headers resp) = Some json_content_type).
Proof.
  intros st op data init h Hop.
  rewrite (mapping_operation_binding _ _ Hop). unfold built.
  rewrite responseFunction_alloc, deref_alloc.
  eexists. split; [reflexivity|]. split; [reflexivity|]. split; [reflexivity|].
  simpl. rewrite spread_headers_default. split.
  - intros ->. reflexivity.
  - intros hs -> Hwf Hcase. rewrite (spread_wf _ Hwf), Headers_fill_map.
    unfold Headers_get. change (lowercase "Content-Type") with "content-type".
    now rewrite (content_type_entry _ Hwf Hcase).
Qed.

Lemma builder_status_and_content_type_witness :
  exists resp,
    built (created [("id", Plain (VNum 1))]
             (Some {| init_status := Some 299%Z; init_statusText := Some "Made";
                      init_headers := Some [("X-A", "1"); ("Content-Type", "text/html")] |}))
          [] = Some resp
    /\ status resp = 201%Z
    /\ statusText resp = "Made"
    /\ Headers_get "Content-Type" (headers resp) = Some json_content_type.
Proof.
  destruct (builder_status_and_content_type 201 created [("id", Plain (VNum 1))]
              (Some {| init_status := Some 299%Z; init_statusText := Some "Made";
                       init_headers := Some [("X-A", "1"); ("Content-Type", "text/html")] |})
              [] (or_intror (or_introl eq_refl)))
    as (resp & Hb & Hs & Ht & _ & Hc).
  exists resp. split; [exact Hb|]. split; [exact Hs|]. split; [exact Ht|].
  apply (Hc [("X-A", "1"); ("Content-Type", "text/html")] eq_refl).
  - distinct_keys.
  - intros k v [E|[E|[]]] Hl; injection E as <- _; [discriminate|reflexivity].
Defined.

(** X10.  Building a response allocates exactly one object, the one that
    is returned, and awaiting allocates at most one; neither touches a
    response that existed before. *)
Theorem builders_frame :
  (forall st op data init h r h1,
      In (st, op) mapping_operations ->
      op data init h = (r, h1) ->
      r = List.length h /\ List.length h1 = S (List.length h)
      /\ forall r0, r0 < List.length h -> deref r0 h1 = deref r0 h)
  /\ (forall st op url h r h1,
         In (st, op) redirect_operations ->
         op url h = (r, h1) ->
         r = List.length h /\ List.length h1 = S (List.length h)
         /\ forall r0, r0 < List.length h -> deref r0 h1 = deref r0 h)
  /\ (forall init h r h1,
         noContent init h = (r, h1) ->
         r = List.length h /\ List.length h1 = S (List.length h)
         /\ forall r0, r0 < List.length h -> deref r0 h1 = deref r0 h)
  /\ (forall r h p h2,
         await_response r h = (p, h2) ->
         List.length h <= List.length h2 <= S (List.length h)
         /\ forall r0, r0 < List.length h -> deref r0 h2 = deref r0 h).
Proof.
  assert (Hone : forall (h : Heap) x,
             List.length (h ++ [x]) = S (List.length h)
             /\ forall r0, r0 < List.length h -> deref r0 (h ++ [x]) = deref r0 h).
  { intros h x. split; [rewrite length_app; simpl; lia|]. intros r0 Hr0.
    now apply deref_old. }
  split; [|split; [|split]].
  - intros st op data init h r h1 Hop Hrun.
    rewrite (mapping_operation_binding _ _ Hop), responseFunction_alloc in Hrun.
    injection Hrun as <- <-. split; [reflexivity|apply Hone].
  - intros st op url h r h1 Hop Hrun.
    rewrite (redirect_operation_binding _ _ Hop) in Hrun.
    unfold redirectFunction, new_Response, alloc in Hrun.
    injection Hrun as <- <-. split; [reflexivity|apply Hone].
  - intros init h r h1 Hrun. unfold noContent, new_Response, alloc in Hrun.
    injection Hrun as <- <-. split; [reflexivity|apply Hone].
  - intros r h p h2 Hawait. unfold await_response in Hawait.
    assert (Hsame : (p, h2) = task_resolve r h ->
              List.length h <= List.length h2 <= S (List.length h)
              /\ forall r0, r0 < List.length h -> deref r0 h2 = deref r0 h).
    { intros E. injection E as _ ->. split; [lia|reflexivity]. }
    destruct (deref r h) as [resp|]; [|now apply Hsame].
    destruct (own_then resp) as [env|]; [|now apply Hsame].
    apply then_heap in Hawait. destruct Hawait as [[_ ->]|(t & x & -> & _)].
    + split; [lia|reflexivity].
    + destruct (Hone h x) as [Hl Hd]. split; [lia|exact Hd].
Qed.

Lemma builders_frame_witness :
  1 = List.length (snd (found "/a" []))
  /\ List.length (snd (ok [("a", Plain VNull)] None (snd (found "/a" []))))
     = S (List.length (snd (found "/a" [])))
  /\ forall r0,
       r0 < List.length (snd (found "/a" [])) ->
       deref r0 (snd (ok [("a", Plain VNull)] None (snd (found "/a" []))))
       = deref r0 (snd (found "/a" [])).
Proof.
  apply (proj1 builders_frame 200%Z ok [("a", Plain VNull)] None (snd (found "/a" []))).
  - simpl. left. reflexivity.
  - reflexivity.
Defined.


(** X12.  [noContent] gives status 204 and no body whatever the
    configuration object holds, also a status of its own; it passes the
    caller's headers and status text on, adds no Content-Type, and its
    response is not a thenable: awaiting it gives it back. *)
Theorem noContent_response :
  forall init h,
    exists r h1 resp,
      noContent init h = (r, h1)
      /\ deref r h1 = Some resp
      /\ status resp = 204%Z
      /\ body resp = BNull
      /\ statusText resp
         = default EmptyString (init_statusText (default empty_init init))
      /\ headers resp
         = map (fun e => (lowercase (fst e), snd e))
             (default [] (init_headers (default empty_init init)))
      /\ await_response r h1 = (resolved r, h1).
Proof.
  intros init h. unfold noContent, new_Response, alloc.
  eexists _, _, _. split; [reflexivity|]. split; [apply deref_alloc|].
  simpl. rewrite Headers_fill_map. repeat split.
  unfold await_response. now rewrite deref_alloc.
Qed.

(** X13.  A redirect response carries the status text of no
    configuration, has no Content-Type, and is not a thenable: awaiting it
    gives it back at once and allocates nothing. *)
Theorem redirect_is_plain :
  forall st op url h r h1,
    In (st, op) redirect_operations ->
    op url h = (r, h1) ->
    (exists resp,
        deref r h1 = Some resp
        /\ statusText resp = EmptyString
        /\ Headers_get "Content-Type" (headers resp) = None
        /\ own_then resp = None)
    /\ await_response r h1 = (resolved r, h1).
Proof.
  intros st op url h r h1 Hop Hrun.
  rewrite (redirect_operation_binding _ _ Hop) in Hrun.
  unfold redirectFunction, new_Response, alloc in Hrun. injection Hrun as <- <-.
  split.
  - eexists. split; [apply deref_alloc|]. repeat split.
  - unfold await_response. now rewrite deref_alloc.
Qed.

Lemma redirect_is_plain_witness :
  await_response 0 (snd (temporaryRedirect "/next" []))
  = (resolved 0, snd (temporaryRedirect "/next" [])).
Proof.
  apply (redirect_is_plain 307%Z temporaryRedirect "/next" [] 0
           (snd (temporaryRedirect "/next" []))).
  - simpl. do 4 right. left. reflexivity.
  - reflexivity.
Defined.

(** ** The checks of the host *)

Lemma forall_chars_impl (p q : ascii -> bool) s :
  (forall c, p c = true -> q c = true) ->
  forall_chars p s = true -> forall_chars q s = true.
Proof.
  intros Hpq. induction s as [|c s IH]; simpl; [reflexivity|].
  intros H. apply andb_true_iff in H as [Hc Hs].
  now rewrite (Hpq _ Hc), IH.
Qed.

Lemma text_char_allowed c : is_text_char c = true -> allowed_in_value c = true.
Proof.
  unfold is_text_char, allowed_in_value. generalize (nat_of_ascii c). intros n H.
  apply negb_true_iff. apply orb_false_iff. split; [apply orb_false_iff; split|];
    apply Nat.eqb_neq; intros ->; discriminate.
Qed.

(** The host of the Fetch standard takes plain values as they are. *)
Lemma fetch_standard_conforming : conforming fetch_standard.
Proof.
  split.
  - intros n H. exact H.
  - intros v H. unfold plain_value in H. apply andb_true_iff in H as [Hc Ht].
    apply String.eqb_eq in Ht. simpl. split; [exact Ht|].
    apply (forall_chars_impl is_text_char); [apply text_char_allowed|exact Hc].
Qed.

Lemma checked_entries_plain host o :
  conforming host -> plain_headers o -> Checked.checked_entries host o = Some o.
Proof.
  intros [Hn Hv] H. induction H as [|[k v] o [Hk Hpv] _ IH]; [reflexivity|].
  simpl in *. destruct (Hv v Hpv) as [-> ->]. rewrite (Hn k Hk), IH. reflexivity.
Qed.

Lemma plain_headers_obj_set o k v :
  plain_headers o -> is_token k = true -> plain_value v = true ->
  plain_headers (obj_set k v o).
Proof.
  intros H Hk Hv. induction H as [|[k0 v0] o [Hk0 Hv0] Ho IH]; simpl.
  - repeat constructor; assumption.
  - destruct (String.eqb k k0); constructor; simpl; auto.
Qed.

(** The checked constructor on arguments it accepts. *)
Lemma checked_new_Response host b init accepted h :
  Checked.checked_entries host (Checked.entries_of (Checked.caller_headers init))
  = Some accepted ->
  Checked.checked_statusText host (Checked.caller_statusText init) = true ->
  Checked.new_Response host b init h
  = (Returned (List.length h),
     h ++ [Response_of b
             {| init_status := Checked.caller_status init;
                init_statusText := Checked.caller_statusText init;
                init_headers := Some accepted |}]).
Proof. intros He Hs. unfold Checked.new_Response. now rewrite He, Hs. Qed.

Lemma checked_mapping_binding st op :
  In (st, op) Checked.mapping_operations ->
  forall host, op host = Checked.responseFunction host st.
Proof.
  intros H host. simpl in H.
  repeat (destruct H as [H|H]; [injection H as <- <-; reflexivity|]).
  contradiction.
Qed.

Lemma checked_redirect_binding st op :
  In (st, op) Checked.redirect_operations ->
  forall host, op host = Checked.redirectFunction host st.
Proof.
  intros H host. simpl in H.
  repeat (destruct H as [H|H]; [injection H as <- <-; reflexivity|]).
  contradiction.
Qed.

(** On a URL the host takes as it is, the checked redirect is the redirect
    of the first part. *)
Lemma checked_redirect_accepted host st url h :
  conforming host -> plain_value url = true ->
  Checked.redirectFunction host st url h
  = (let (r, h1) := redirectFunction st url h in (Returned r, h1)).
Proof.
  intros Hc Hu. unfold Checked.redirectFunction.
  rewrite (checked_new_Response _ _ _ [("Location", url)]); [reflexivity| |reflexivity].
  apply checked_entries_plain; [exact Hc|]. repeat constructor; assumption.
Qed.

(** ** JSON.stringify: errors at any depth *)





(** ** Properties that depend on the host, and on error values at depth *)




(** C5, as stated: every URL string ends up in the [Location] header of a
    response.  A string with a line feed inside is refused by the host,
    and the redirect operation throws. *)
Lemma redirect_refuses_line_feed :
  ~ (forall url,
       exists r h1 resp,
         Checked.found fetch_standard url [] = (Returned r, h1)
         /\ deref r h1 = Some resp
         /\ status resp = 302%Z
         /\ body resp = BNull
         /\ Headers_get "Location" (headers resp) = Some url).
Proof.
  intros H.
  destruct (H ("/a" ++ String (ascii_of_nat 10) "b")%string) as (r & h1 & resp & E & _).
  vm_compute in E. discriminate.
Qed.

(** C5, amended.  For every URL string the host takes as a header value as
    it is (tab, space, visible characters and code units from 128 to 255
    only, no white space around it), each redirect operation returns a
    response without body, whose only header is [Location] with exactly
    that string, and whose status is the one fixed for the operation:
    301, 302, 303, 304, 307, 308. *)
Theorem redirect_response :
  forall host st op url h,
    conforming host ->
    In (st, op)
       [ (301, Checked.movedPermanently); (302, Checked.found);
         (303, Checked.seeOther); (304, Checked.notModified);
         (307, Checked.temporaryRedirect); (308, Checked.permanentRedirect) ]%Z ->
    plain_value url = true ->
    exists r h1 resp,
      op host url h = (Returned r, h1)
      /\ deref r h1 = Some resp
      /\ status resp = st
      /\ body resp = BNull
      /\ headers resp = [("location", url)]
      /\ Headers_get "Location" (headers resp) = Some url.
Proof.
  intros host st op url h Hc Hop Hu.
  rewrite (checked_redirect_binding _ _ Hop host).
  rewrite (checked_redirect_accepted _ _ _ _ Hc Hu).
  unfold redirectFunction, new_Response, alloc.
  eexists _, _, _. split; [reflexivity|]. split; [apply deref_alloc|].
  simpl. repeat split.
Qed.

Lemma redirect_response_witness :
  exists r h1 resp,
    Checked.seeOther fetch_standard "https://www.example.com/a?b=c" [] = (Returned r, h1)
    /\ deref r h1 = Some resp
    /\ status resp = 303%Z
    /\ body resp = BNull
    /\ headers resp = [("location", "https://www.example.com/a?b=c")]
    /\ Headers_get "Location" (headers resp) = Some "https://www.example.com/a?b=c".
Proof.
  apply (redirect_response fetch_standard 303 Checked.seeOther
           "https://www.example.com/a?b=c" [] fetch_standard_conforming).
  - simpl. do 2 right. left. reflexivity.
  - reflexivity.
Defined.

(** C6, amended.  The mapping-based operations and [noContent] accept an
    optional configuration object.  Header entries it supplies as a plain
    record, with names and values the host takes as they are, appear in
    the response: for a mapping-based operation every entry not named
    [Content-Type], next to the default Content-Type entry; for
    [noContent] every entry, without default.  The redirect operations
    take the URL only: a configuration object passed to them is dropped
    and the response has the [Location] header alone. *)
Theorem configuration_headers :
  forall host,
    conforming host ->
    (forall st op data init hs k v h,
        In (st, op) Checked.mapping_operations ->
        Checked.caller_headers init = Some (Checked.HRecord hs) ->
        wf_obj hs -> plain_headers hs ->
        Checked.checked_statusText host (Checked.caller_statusText init) = true ->
        In (k, v) hs -> k <> "Content-Type" ->
        exists r h1 resp,
          op host data (Some init) h = (Returned r, h1)
          /\ deref r h1 = Some resp
          /\ In (lowercase k, v) (headers resp)
          /\ In ("content-type", json_content_type) (headers resp))
    /\ (forall init hs k v h,
           Checked.caller_headers init = Some (Checked.HRecord hs) ->
           plain_headers hs ->
           Checked.checked_statusText host (Checked.caller_statusText init) = true ->
           In (k, v) hs ->
           exists r h1 resp,
             Checked.noContent host (Some init) h = (Returned r, h1)
             /\ deref r h1 = Some resp
             /\ In (lowercase k, v) (headers resp)
             /\ Headers_get "Content-Type" (headers resp)
                = Headers_get "Content-Type"
                    (map (fun e => (lowercase (fst e), snd e)) hs))
    /\ (forall st op url (init : option Checked.Init) h,
           In (st, op) Checked.redirect_operations ->
           plain_value url = true ->
           exists r h1 resp,
             call_with_surplus (op host) url init h = (Returned r, h1)
             /\ deref r h1 = Some resp
             /\ headers resp = [("location", url)]).
Proof.
  intros host Hc. split; [|split].
  - intros st op data init hs k v h Hop Hhs Hwf Hplain Hst Hin Hne.
    rewrite (checked_mapping_binding _ _ Hop host).
    unfold Checked.responseFunction, Checked.makeResponse.
    rewrite (checked_new_Response host _ _
               (obj_set "Content-Type" json_content_type hs)); [| |exact Hst].
    + eexists _, _, _. split; [reflexivity|]. rewrite update_last.
      split; [apply deref_alloc|]. simpl. split.
      * apply Headers_fill_In. now apply obj_set_other.
      * apply (Headers_fill_In _ "Content-Type"). apply obj_set_In.
    + simpl. rewrite Hhs. simpl. rewrite (spread_wf _ Hwf).
      apply checked_entries_plain; [exact Hc|].
      apply plain_headers_obj_set; [exact Hplain|reflexivity|reflexivity].
  - intros init hs k v h Hhs Hplain Hst Hin. unfold Checked.noContent.
    rewrite (checked_new_Response host _ _ hs); [| |exact Hst].
    + eexists _, _, _. split; [reflexivity|]. split; [apply deref_alloc|].
      simpl. split; [now apply Headers_fill_In|]. now rewrite Headers_fill_map.
    + simpl. rewrite Hhs. simpl. now apply checked_entries_plain.
  - intros st op url init h Hop Hu. unfold call_with_surplus.
    rewrite (checked_redirect_binding _ _ Hop host).
    rewrite (checked_redirect_accepted _ _ _ _ Hc Hu).
    unfold redirectFunction, new_Response, alloc.
    eexists _, _, _. split; [reflexivity|]. split; [apply deref_alloc|]. reflexivity.
Qed.

Lemma configuration_headers_witness :
  exists r h1 resp,
    Checked.serviceUnavailable fetch_standard [("a", Plain VNull)]
      (Some {| Checked.caller_status := None; Checked.caller_statusText := None;
               Checked.caller_headers :=
                 Some (Checked.HRecord [("Retry-After", "300")]) |}) []
    = (Returned r, h1)
    /\ deref r h1 = Some resp
    /\ In (lowercase "Retry-After", "300") (headers resp)
    /\ In ("content-type", json_content_type) (headers resp).
Proof.
  apply (proj1 (configuration_headers fetch_standard fetch_standard_conforming)
           503%Z Checked.serviceUnavailable [("a", Plain VNull)]
           {| Checked.caller_status := None; Checked.caller_statusText := None;
              Checked.caller_headers := Some (Checked.HRecord [("Retry-After", "300")]) |}
           [("Retry-After", "300")] "Retry-After" "300" []).
  - simpl. do 19 right. left. reflexivity.
  - reflexivity.
  - distinct_keys.
  - repeat constructor.
  - reflexivity.
  - left. reflexivity.
  - discriminate.
Defined.

(** Headers given in the other two shapes do not reach the response of a
    mapping-based operation as they were given: a [Headers] object is
    dropped by the spread, an array of pairs comes out under its indices.
    [noContent], which hands them to the constructor, keeps them. *)
Example headers_object_is_dropped :
  (let (c, h) := Checked.ok fetch_standard [("a", Plain VNull)]
                   (Some {| Checked.caller_status := None;
                            Checked.caller_statusText := None;
                            Checked.caller_headers :=
                              Some (Checked.HInstance [("x-trace", "1")]) |}) [] in
   match c with
   | Returned r => option_map headers (deref r h)
   | ThrownTypeError => None
   end) = Some [("content-type", json_content_type)]
  /\ (let (c, h) := Checked.ok fetch_standard [("a", Plain VNull)]
                      (Some {| Checked.caller_status := None;
                               Checked.caller_statusText := None;
                               Checked.caller_headers :=
                                 Some (Checked.HPairs [("X-Trace", "1")]) |}) [] in
      match c with
      | Returned r => option_map headers (deref r h)
      | ThrownTypeError => None
      end) = Some [("0", "X-Trace,1"); ("content-type", json_content_type)]
  /\ (let (c, h) := Checked.noContent fetch_standard
                      (Some {| Checked.caller_status := None;
                               Checked.caller_statusText := None;
                               Checked.caller_headers :=
                                 Some (Checked.HInstance [("x-trace", "1")]) |}) [] in
      match c with
      | Returned r => option_map headers (deref r h)
      | ThrownTypeError => None
      end) = Some [("x-trace", "1")].
Proof. repeat split. Qed.

(** The host of the Fetch standard strips the white space around a URL
    before it stores it. *)
Example redirect_trims_white_space :
  (let (c, h) := Checked.found fetch_standard " /a " [] in
   match c with
   | Returned r => option_map headers (deref r h)
   | ThrownTypeError => None
   end) = Some [("location", "/a")].
Proof. reflexivity. Qed.

(** C9.  The two settlement runs of one deferred response agree in
    content.  When every computation settles, the returned response's
    stream delivers the JSON text of one settlement record per key, each
    record being the outcome of the computation under that key, and the
    await settles: if some computation failed it rejects with a response
    whose body is that same text; otherwise it fulfills with a response
    whose body is the JSON text of a mapping that gives every key the very
    value the provisional record for that key holds as fulfilled.  When
    some computation never settles neither run delivers anything. *)
Theorem settlement_runs_agree :
  forall st op data init h r h1,
    In (st, op) mapping_operations ->
    wf_obj data ->
    op data init h = (r, h1) ->
    (all_settle data = true ->
     exists records s original p h2 r' awaited,
       settle_each data = Some records
       /\ (forall k f, In (k, f) data ->
             exists out, outcome_of f = Some out
                         /\ obj_get k records = Some (settlement_record out))
       /\ deref r h1 = Some original
       /\ JSON.stringify (Some errorReplacer) (VObj records) = Some s
       /\ body original = BStream (Pushed (last_tick data) [s])
       /\ await_response r h1 = (p, h2)
       /\ settled_ref p = Some r'
       /\ deref r' h2 = Some awaited
       /\ (some_fails data = true ->
           p = Settles (last_tick data) (Rejected r') /\ body awaited = BText s)
       /\ (some_fails data = false ->
           exists o s',
             p = Settles (last_tick data) (Fulfilled r')
             /\ JSON.stringify None (VObj o) = Some s'
             /\ body awaited = BText s'
             /\ records = fulfilled_records o
             /\ forall k f, In (k, f) data ->
                  exists v, outcome_of f = Some (Fulfilled v) /\ obj_get k o = Some v))
    /\ (all_settle data = false ->
        exists original,
          deref r h1 = Some original
          /\ body original = BStream Silent
          /\ await_response r h1 = (Never, h1)).
Proof.
  intros st op data init h r h1 Hop Hwf Hrun.
  rewrite (mapping_operation_binding _ _ Hop), responseFunction_alloc in Hrun.
  injection Hrun as <- <-.
  set (orig := set_then {| env_status := st; env_data := data; env_init := init |}
                 (Response_of (BStream (provisional_stream data))
                    (makeResponse_options st init))).
  assert (Hawait : await_response (List.length h) (h ++ [orig])
                   = then_ st data init task_resolve Promise_reject (h ++ [orig]))
    by (rewrite (await_response_deferred _ _ orig
                   {| env_status := st; env_data := data; env_init := init |}
                   (deref_alloc h orig) eq_refl); reflexivity).
  split; intros Ha.
  - apply all_settle_settle_each in Ha as [records Hs].
    destruct (JSON_stringify_object (Some errorReplacer) records) as [s Hj];
      [now right|].
    assert (Hwfr : wf_obj records)
      by (unfold wf_obj; now rewrite (settle_each_keys _ _ Hs)).
    assert (Hrec : forall k f, In (k, f) data ->
              exists out, outcome_of f = Some out
                          /\ obj_get k records = Some (settlement_record out)).
    { intros k f Hin. destruct (settle_each_In _ _ _ _ Hs Hin) as (out & Ho & Hi).
      exists out. split; [exact Ho|now apply obj_get_In]. }
    assert (Hbody : body orig = BStream (Pushed (last_tick data) [s])).
    { simpl. unfold provisional_stream.
      now rewrite (hashSettled_tick (E := Value) _ _ Hwf Hs), Hj. }
    destruct (some_fails data) eqn:Hf.
    + destruct (hash_rejects _ Hf) as (t & e & Hh).
      rewrite (then_rejected_tick st data init (h ++ [orig]) _ _ _ _ Hh
                 (hashSettled_tick (E := Ref) _ _ Hwf Hs)
                 (first_failure_before_last _ _ _ Hh)) in Hawait.
      eexists records, s, orig, _, _, _, _.
      split; [exact Hs|]. split; [exact Hrec|]. split; [apply deref_alloc|].
      split; [exact Hj|]. split; [exact Hbody|]. split; [exact Hawait|].
      split; [reflexivity|]. split; [apply deref_alloc|]. split.
      * intros _. split; [reflexivity|]. simpl. now rewrite Hj.
      * discriminate.
    + assert (Hall : all_settle data = true)
        by (apply all_settle_settle_each; eauto).
      destruct (settled_without_failure _ Hall Hf) as [o Hr].
      rewrite (then_fulfilled_tick st data init (h ++ [orig]) _ _
                 (hash_tick _ _ Hwf Hr)) in Hawait.
      destruct (JSON_stringify_object None o) as [s' Hj']; [now left|].
      eexists records, s, orig, _, _, _, _.
      split; [exact Hs|]. split; [exact Hrec|]. split; [apply deref_alloc|].
      split; [exact Hj|]. split; [exact Hbody|]. split; [exact Hawait|].
      split; [reflexivity|]. split; [apply deref_alloc|]. split.
      * discriminate.
      * intros _. exists o, s'. split; [reflexivity|]. split; [exact Hj'|].
        split; [simpl; now rewrite Hj'|]. split.
        -- pose proof (replace_pending_settle_each _ _ Hr) as Hs'. congruence.
        -- intros k f Hin. destruct (replace_pending_In _ _ _ _ Hr Hin) as (v & Hv & Hi).
           exists v. split; [exact Hv|]. apply obj_get_In; [|exact Hi].
           unfold wf_obj. now rewrite (replace_pending_keys _ _ Hr).
  - exists orig. split; [apply deref_alloc|]. split.
    + simpl. unfold provisional_stream.
      now rewrite (hashSettled_never (E := Value) _ (all_settle_false _ Ha)).
    + rewrite Hawait. apply then_pending. destruct (some_fails data) eqn:Hf.
      * right. split; [now apply hash_rejects|].
        apply hashSettled_never. now apply all_settle_false.
      * left. apply hash_never; [exact Hf|].
        destruct (replace_pending data) as [o|] eqn:Hr; [|reflexivity].
        apply replace_pending_settle_each in Hr.
        rewrite (all_settle_false _ Ha) in Hr. discriminate.
Qed.

Lemma settlement_runs_agree_witness :
  exists records s original p h2 r' awaited,
    settle_each [("a", fulfilled_with "a"); ("b", rejected_with (VStr "b"))] = Some records
    /\ (forall k f,
          In (k, f) [("a", fulfilled_with "a"); ("b", rejected_with (VStr "b"))] ->
          exists out, outcome_of f = Some out
                      /\ obj_get k records = Some (settlement_record out))
    /\ deref 0 (snd (ok [("a", fulfilled_with "a"); ("b", rejected_with (VStr "b"))] None []))
       = Some original
    /\ JSON.stringify (Some errorReplacer) (VObj records) = Some s
    /\ body original
       = BStream (Pushed
           (last_tick [("a", fulfilled_with "a"); ("b", rejected_with (VStr "b"))]) [s])
    /\ await_response 0
         (snd (ok [("a", fulfilled_with "a"); ("b", rejected_with (VStr "b"))] None []))
       = (p, h2)
    /\ settled_ref p = Some r'
    /\ deref r' h2 = Some awaited
    /\ (some_fails [("a", fulfilled_with "a"); ("b", rejected_with (VStr "b"))] = true ->
        p = Settles
              (last_tick [("a", fulfilled_with "a"); ("b", rejected_with (VStr "b"))])
              (Rejected r')
        /\ body awaited = BText s)
    /\ (some_fails [("a", fulfilled_with "a"); ("b", rejected_with (VStr "b"))] = false ->
        exists o s',
          p = Settles
                (last_tick [("a", fulfilled_with "a"); ("b", rejected_with (VStr "b"))])
                (Fulfilled r')
          /\ JSON.stringify None (VObj o) = Some s'
          /\ body awaited = BText s'
          /\ records = fulfilled_records o
          /\ forall k f,
               In (k, f) [("a", fulfilled_with "a"); ("b", rejected_with (VStr "b"))] ->
               exists v, outcome_of f = Some (Fulfilled v) /\ obj_get k o = Some v).
Proof.
  apply (proj1 (settlement_runs_agree 200 ok
                  [("a", fulfilled_with "a"); ("b", rejected_with (VStr "b"))] None [] 0 _
                  (or_introl eq_refl) ltac:(distinct_keys) eq_refl)).
  reflexivity.
Defined.
